(** * First Contact guest-list tooling: the Gather.Town API client

    A shallow embedding of [gather_api_client.js] (the HTTP client with its
    retry loop, the error classes and the rate-limit manager) and of
    [FCGuestManager.chunkArray] from [fc_guest_manager.js], with the
    properties of the written specification that concern them.

    Conventions of the embedding.
    - JavaScript numbers that the code only ever uses as integers
      (attempt counters, millisecond durations, HTTP status codes, array
      indices, [Date.now()] timestamps) are values of [Z].
    - A JavaScript [Map] is a [gmap]; arrays are lists.
    - An [async] method is a state transformer: the state carries [this]
      and the trace of the observable effects ([fetch] calls and timer
      waits); a rejected promise is the completion [Throw].
    - [console.log] lines are not recorded: none of them can throw and no
      property below is about the log. *)

From Stdlib Require Import Ascii.
From stdpp Require Import gmap strings list fin_maps pretty sorting.

Set Warnings "-register-all".
Local Open Scope Z_scope.

(** ** JavaScript values *)

(** The values that travel through the client: what [response.json()]
    decodes, and what callers hand to [JSON.stringify]. Numbers are the
    integers; an object is the list of its own enumerable properties in
    enumeration order, each key once. Values that [JSON.stringify]
    refuses or rewrites by a method of theirs (cyclic structures, BigInt,
    [toJSON]) are not represented. *)
Inductive JsValue : Type :=
| JUndefined
| JNull
| JBool (b : bool)
| JNum (n : Z)
| JStr (s : string)
| JArr (items : list JsValue)
| JObj (props : list (string * JsValue)).

(** [Array.isArray(v)] *)
Definition Array_isArray (v : JsValue) : bool :=
  match v with JArr _ => true | _ => false end.

(** ToBoolean, as used by [a || b]. *)
Definition truthy (v : JsValue) : bool :=
  match v with
  | JUndefined | JNull => false
  | JBool b => b
  | JNum n => negb (n =? 0)
  | JStr s => negb (String.eqb s EmptyString)
  | JArr _ | JObj _ => true
  end.

(** [a || b] *)
Definition js_or (a b : JsValue) : JsValue := if truthy a then a else b.

(** Own property of a decoded object, first match in the property list. *)
Fixpoint assoc (k : string) (props : list (string * JsValue)) : JsValue :=
  match props with
  | [] => JUndefined
  | (k', v) :: rest => if String.eqb k k' then v else assoc k rest
  end.

(** ToString, as applied by template literals and by the [Error]
    constructor to its message. *)
Fixpoint ToString (v : JsValue) : string :=
  match v with
  | JUndefined => "undefined"
  | JNull => "null"
  | JBool true => "true"
  | JBool false => "false"
  | JNum n => pretty n
  | JStr s => s
  | JArr items =>
      (* Array.prototype.join: null and undefined elements print as nothing *)
      let element (x : JsValue) : string :=
        match x with
        | JUndefined | JNull => EmptyString
        | _ => ToString x
        end in
      (fix join (l : list JsValue) : string :=
         match l with
         | [] => EmptyString
         | [x] => element x
         | x :: rest => element x +:+ "," +:+ join rest
         end) items
  | JObj _ => "[object Object]"
  end.

(** *** [JSON.stringify] *)

Definition hex_digit (n : N) : Ascii.ascii :=
  default "0"%char (String.list_ascii_of_string "0123456789abcdef" !! N.to_nat n).

(** One code unit of a string literal inside JSON text. *)
Definition quote_char (c : Ascii.ascii) : string :=
  let n := Ascii.N_of_ascii c in
  let backslash := "092"%char in
  if (n =? 34)%N then String backslash (String c EmptyString)
  else if (n =? 92)%N then String backslash (String c EmptyString)
  else if (n =? 8)%N then String backslash "b"
  else if (n =? 9)%N then String backslash "t"
  else if (n =? 10)%N then String backslash "n"
  else if (n =? 12)%N then String backslash "f"
  else if (n =? 13)%N then String backslash "r"
  else if (n <? 32)%N then
    String backslash
      (String "u" (String "0" (String "0"
         (String (hex_digit (n / 16)) (String (hex_digit (n mod 16)) EmptyString)))))
  else String c EmptyString.

Fixpoint quote_chars (s : string) : string :=
  match s with
  | EmptyString => EmptyString
  | String c rest => quote_char c +:+ quote_chars rest
  end.

Definition quote (s : string) : string :=
  let dq := String "034"%char EmptyString in
  dq +:+ quote_chars s +:+ dq.

(** Serialisation of a value in a position that always prints something
    (an array element or the value of a kept property): [undefined]
    prints as [null] there. *)
Fixpoint stringify_value (v : JsValue) : string :=
  match v with
  | JUndefined | JNull => "null"
  | JBool true => "true"
  | JBool false => "false"
  | JNum n => pretty n
  | JStr s => quote s
  | JArr items =>
      "[" +:+
      (fix elements (l : list JsValue) : string :=
         match l with
         | [] => EmptyString
         | [x] => stringify_value x
         | x :: rest => stringify_value x +:+ "," +:+ elements rest
         end) items
      +:+ "]"
  | JObj props =>
      "{" +:+
      (fix members (first : bool) (l : list (string * JsValue)) : string :=
         match l with
         | [] => EmptyString
         | (k, JUndefined) :: rest => members first rest
         | (k, x) :: rest =>
             (if first then EmptyString else ",")
             +:+ quote k +:+ ":" +:+ stringify_value x +:+ members false rest
         end) true props
      +:+ "}"
  end.

(** [JSON.stringify(v)]: [undefined] at the top is not serialised at all
    (the result is [undefined], here [None]). *)
Definition JSON_stringify (v : JsValue) : option string :=
  match v with
  | JUndefined => None
  | _ => Some (stringify_value v)
  end.

(** ** Errors and completions *)

(** An error object with the properties the code reads: [name],
    [message], and, on the classes that set them, [status] and [data].
    A missing property is [None]. *)
Record JsError : Type := mkError {
  name : string;
  message : string;
  status : option Z;
  data : option JsValue
}.

(** [new Error(message)], and errors of libraries that, like it, carry no
    [status] (node-fetch's [FetchError], the engine's [TypeError]). *)
Definition Error_named (name message : string) : JsError :=
  {| name := name; message := message; status := None; data := None |}.

Definition Error (message : string) : JsError := Error_named "Error" message.

Definition TypeError (message : string) : JsError :=
  Error_named "TypeError" message.

(** [class APIError extends Error]: [super(message)] stores the message as
    a string. *)
Definition APIError (status : Z) (message : JsValue) : JsError :=
  {| name := "APIError"; message := ToString message;
     status := Some status; data := None |}.

(** [class ValidationError extends APIError] *)
Definition ValidationError (msg : JsValue) (data : JsValue) : JsError :=
  let super := APIError 400 msg in
  {| name := "ValidationError"; message := super.(message);
     status := super.(status); data := Some data |}.

(** [class PermissionError extends APIError] *)
Definition PermissionError (msg : JsValue) : JsError :=
  let super := APIError 403 msg in
  {| name := "PermissionError"; message := super.(message);
     status := super.(status); data := super.(data) |}.

(** [class ConflictError extends APIError] *)
Definition ConflictError (msg : JsValue) : JsError :=
  let super := APIError 409 msg in
  {| name := "ConflictError"; message := super.(message);
     status := super.(status); data := super.(data) |}.

(** [class RateLimitError extends Error] *)
Definition RateLimitError (message : string) : JsError :=
  Error_named "RateLimitError" message.

(** How a call ends: with a value, with a thrown error (a rejected
    promise), or, for the loops modelled with fuel, without having ended
    within the fuel. *)
Inductive Completion (A : Type) : Type :=
| Normal (a : A)
| Throw (e : JsError)
| OutOfFuel.
Arguments Normal {A} a.
Arguments Throw {A} e.
Arguments OutOfFuel {A}.

(** Computations over a state [S] that may throw. *)
Definition M (S A : Type) : Type := S → Completion A * S.

Definition ret {S A} (a : A) : M S A := λ s, (Normal a, s).

Definition bind {S A B} (m : M S A) (k : A → M S B) : M S B :=
  λ s, match m s with
       | (Normal a, s') => k a s'
       | (Throw e, s') => (Throw e, s')
       | (OutOfFuel, s') => (OutOfFuel, s')
       end.

Definition throw {S A} (e : JsError) : M S A := λ s, (Throw e, s).

Definition out_of_fuel {S A} : M S A := λ s, (OutOfFuel, s).

(** [try { m } catch (error) { handler error }] *)
Definition try_catch {S A} (m : M S A) (handler : JsError → M S A) : M S A :=
  λ s, match m s with
       | (Throw e, s') => handler e s'
       | r => r
       end.

Definition gets {S A} (f : S → A) : M S A := λ s, (Normal (f s), s).

Definition modify {S} (f : S → S) : M S unit := λ s, (Normal tt, f s).

#[global] Instance M_ret {S} : MRet (M S) := @ret S.
#[global] Instance M_bind {S} : MBind (M S) := λ A B k m, bind m k.

(** ** The HTTP transport *)

(** The [options] object handed to [fetch]. An absent key is [None]. *)
Record RequestInit : Type := {
  method : option string;
  headers : option (list (string * string));
  body : option string
}.

(** node-fetch's [Response], reduced to what the client reads. [json] is
    what [response.json()] settles to: the decoded body, or the message of
    the error it rejects with when the body is not JSON. *)
Module Response.
Record t : Type := {
  status : Z;
  statusText : string;
  json : string + JsValue
}.

(** [response.ok] *)
Definition ok (r : t) : bool := (200 <=? status r) && (status r <? 300).
End Response.

(** What one [fetch] call settles to: a response, whatever its status, or
    a rejection when no response arrives (DNS failure, connection refused,
    reset, ...), an error named [failure] that has no [status]. *)
Inductive FetchOutcome : Type :=
| Responded (response : Response.t)
| Rejected (failure reason : string).

(** The effects an observer of the process sees. *)
Inductive Event : Type :=
| EvFetch (url : string) (init : RequestInit)
| EvDelay (ms : Z).

(** The world around the client: the environment variables, the remote
    service (what the [n]-th [fetch] of the run settles to, given its
    arguments), the number of [fetch] calls made and the effects so far. *)
Record World : Type := {
  process_env : gmap string string;
  network : nat → string → RequestInit → FetchOutcome;
  served : nat;
  trace : list Event
}.

Definition record_event (e : Event) (w : World) : World :=
  {| process_env := process_env w; network := network w;
     served := match e with EvFetch _ _ => S (served w) | EvDelay _ => served w end;
     trace := trace w ++ [e] |}.

(** [await fetch(url, init)] *)
Definition fetch (url : string) (init : RequestInit) : M World Response.t :=
  λ w, match network w (served w) url init with
       | Responded r => (Normal r, record_event (EvFetch url init) w)
       | Rejected failure reason =>
           (Throw (Error_named failure reason), record_event (EvFetch url init) w)
       end.

(** [await response.json()] *)
Definition Response_json {S} (r : Response.t) : M S JsValue :=
  match Response.json r with
  | inr v => ret v
  | inl reason => throw (Error_named "FetchError" reason)
  end.

(** [v.key] for a property no prototype provides: reading it off [null]
    or [undefined] throws. *)
Definition get_property {S} (v : JsValue) (key : string) : M S JsValue :=
  match v with
  | JUndefined =>
      throw (TypeError ("Cannot read properties of undefined (reading '" +:+ key +:+ "')"))
  | JNull =>
      throw (TypeError ("Cannot read properties of null (reading '" +:+ key +:+ "')"))
  | JObj props => ret (assoc key props)
  | _ => ret JUndefined
  end.

(** ** [class GatherAPIClient] *)

Record RetryConfig : Type := {
  maxRetries : Z;
  backoffMs : Z;
  retryCondition : JsError → bool
}.

Record GatherAPIClient : Type := {
  apiKey : JsValue;
  baseUrl : JsValue;
  retryConfig : RetryConfig
}.

(** [(error) => error.status >= 500 || error.status === 429]; both
    comparisons are false on an error without [status]. *)
Definition default_retryCondition (error : JsError) : bool :=
  match status error with
  | Some s => (500 <=? s) || (s =? 429)
  | None => false
  end.

(** [process.env.KEY] *)
Definition env_var (env : gmap string string) (key : string) : JsValue :=
  match env !! key with
  | Some s => JStr s
  | None => JUndefined
  end.

(** [new GatherAPIClient(apiKey)] *)
Definition new_GatherAPIClient (apiKey : JsValue) : M World GatherAPIClient :=
  env ← gets process_env;
  let this_apiKey := js_or apiKey (env_var env "GATHER_API_KEY") in
  let this_baseUrl :=
    js_or (env_var env "GATHER_BASE_URL") (JStr "https://gather.town/api/v2") in
  let this_retryConfig :=
    {| maxRetries := 3; backoffMs := 1000;
       retryCondition := default_retryCondition |} in
  if negb (truthy this_apiKey) then
    throw (Error "Gather.Town API key is required")
  else
    ret {| apiKey := this_apiKey; baseUrl := this_baseUrl;
           retryConfig := this_retryConfig |}.

(** A method call runs on the receiver [this] and the world. *)
Record Activation : Type := {
  this : GatherAPIClient;
  world : World
}.

Definition in_world {A} (m : M World A) : M Activation A :=
  λ s, let '(r, w) := m (world s) in (r, {| this := this s; world := w |}).

(** [delay(ms)]: the promise resolves when the timer fires. *)
Definition delay (ms : Z) : M Activation unit :=
  in_world (modify (record_event (EvDelay ms))).

(** [{ ...defaultOptions, ...options }]: a key of [options] replaces the
    same key of [defaultOptions] as a whole. *)
Definition spread (defaultOptions options : RequestInit) : RequestInit :=
  {| method := from_option Some (method defaultOptions) (method options);
     headers := from_option Some (headers defaultOptions) (headers options);
     body := from_option Some (body defaultOptions) (body options) |}.

(** How one turn of the retry loop ends when it does not throw. *)
Inductive LoopStep : Type :=
| Return (responseData : JsValue)
| Continue.

(** The [for (let attempt = 0; attempt <= maxRetries; attempt++)] loop of
    [makeRequest], entered at [attempt]. *)
Fixpoint makeRequest_loop (fuel : nat) (url : string)
    (requestOptions : RequestInit) (attempt : Z) : M Activation JsValue :=
  match fuel with
  | O => out_of_fuel
  | S fuel' =>
      config ← gets (λ s, retryConfig (this s));
      if attempt <=? maxRetries config then
        step ← try_catch
          (response ← in_world (fetch url requestOptions);
           responseData ← Response_json response;
           if negb (Response.ok response) then
             msg ← get_property responseData "message";
             throw (APIError (Response.status response)
                      (js_or msg (JStr (Response.statusText response))))
           else ret (Return responseData))
          (λ error,
             config ← gets (λ s, retryConfig (this s));
             if (attempt =? maxRetries config)
                || negb (retryCondition config error) then
               throw error
             else
               (* Exponential backoff *)
               let backoffTime := backoffMs config * 2 ^ attempt in
               delay backoffTime;;
               ret Continue);
        match step with
        | Return responseData => ret responseData
        | Continue => makeRequest_loop fuel' url requestOptions (attempt + 1)
        end
      else ret JUndefined
  end.

(** [`${this.baseUrl}${endpoint}`] *)
Definition request_url (self : GatherAPIClient) (endpoint : string) : string :=
  ToString (baseUrl self) +:+ endpoint.

Definition defaultOptions (self : GatherAPIClient) : RequestInit :=
  {| method := None;
     headers := Some [("Authorization", "Bearer " +:+ ToString (apiKey self));
                      ("Content-Type", "application/json");
                      ("User-Agent", "FC-GuestList-POC/1.0")];
     body := None |}.

(** [makeRequest(endpoint, options = {})]. The loop body runs at most
    [maxRetries + 1] times; one more turn sees the exit test fail. *)
Definition makeRequest (endpoint : string) (options : RequestInit)
    : M Activation JsValue :=
  self ← gets this;
  let url := request_url self endpoint in
  let requestOptions := spread (defaultOptions self) options in
  makeRequest_loop (S (Z.to_nat (maxRetries (retryConfig self) + 1)))
    url requestOptions 0.

Definition no_options : RequestInit :=
  {| method := None; headers := None; body := None |}.

Definition createSpace (spaceConfig : JsValue) : M Activation JsValue :=
  makeRequest "/spaces"
    {| method := Some "POST"; headers := None;
       body := JSON_stringify spaceConfig |}.

Definition getSpace (spaceId : JsValue) : M Activation JsValue :=
  makeRequest ("/spaces/" +:+ ToString spaceId) no_options.

Definition updateSpace (spaceId updates : JsValue) : M Activation JsValue :=
  makeRequest ("/spaces/" +:+ ToString spaceId)
    {| method := Some "PUT"; headers := None;
       body := JSON_stringify updates |}.

(** The object literal that [addGuest] serialises. *)
Definition addGuest_payload (guestConfig : JsValue) : JsValue :=
  JObj [("guests", if Array_isArray guestConfig then guestConfig
                   else JArr [guestConfig]);
        ("sendInvitation", JBool true)].

Definition addGuest (spaceId guestConfig : JsValue) : M Activation JsValue :=
  try_catch
    (makeRequest ("/spaces/" +:+ ToString spaceId +:+ "/guests")
       {| method := Some "POST"; headers := None;
          body := JSON_stringify (addGuest_payload guestConfig) |})
    (λ error,
       (* Enhanced error handling for common scenarios *)
       if bool_decide (status error = Some 400) then
         throw (ValidationError (JStr "Invalid guest configuration") guestConfig)
       else if bool_decide (status error = Some 403) then
         throw (PermissionError (JStr "Insufficient permissions to add guests"))
       else if bool_decide (status error = Some 409) then
         throw (ConflictError (JStr "Guest already exists in space"))
       else throw error).

Definition getGuestList (spaceId : JsValue) : M Activation JsValue :=
  makeRequest ("/spaces/" +:+ ToString spaceId +:+ "/guests") no_options.

Definition updateGuest (spaceId guestId updates : JsValue) : M Activation JsValue :=
  makeRequest ("/spaces/" +:+ ToString spaceId +:+ "/guests/" +:+ ToString guestId)
    {| method := Some "PUT"; headers := None;
       body := JSON_stringify updates |}.

Definition removeGuest (spaceId guestId : JsValue) : M Activation JsValue :=
  makeRequest ("/spaces/" +:+ ToString spaceId +:+ "/guests/" +:+ ToString guestId)
    {| method := Some "DELETE"; headers := None; body := None |}.

Definition sendInvitation (invitationConfig : JsValue) : M Activation JsValue :=
  makeRequest "/invitations"
    {| method := Some "POST"; headers := None;
       body := JSON_stringify invitationConfig |}.

Definition createWebhook (webhookConfig : JsValue) : M Activation JsValue :=
  makeRequest "/webhooks"
    {| method := Some "POST"; headers := None;
       body := JSON_stringify webhookConfig |}.

(** The methods of the class, as calls. *)
Inductive Operation : Type :=
| Call_makeRequest (endpoint : string) (options : RequestInit)
| Call_createSpace (spaceConfig : JsValue)
| Call_getSpace (spaceId : JsValue)
| Call_updateSpace (spaceId updates : JsValue)
| Call_addGuest (spaceId guestConfig : JsValue)
| Call_getGuestList (spaceId : JsValue)
| Call_updateGuest (spaceId guestId updates : JsValue)
| Call_removeGuest (spaceId guestId : JsValue)
| Call_sendInvitation (invitationConfig : JsValue)
| Call_createWebhook (webhookConfig : JsValue)
| Call_delay (ms : Z).

Definition call (op : Operation) : M Activation JsValue :=
  match op with
  | Call_makeRequest endpoint options => makeRequest endpoint options
  | Call_createSpace spaceConfig => createSpace spaceConfig
  | Call_getSpace spaceId => getSpace spaceId
  | Call_updateSpace spaceId updates => updateSpace spaceId updates
  | Call_addGuest spaceId guestConfig => addGuest spaceId guestConfig
  | Call_getGuestList spaceId => getGuestList spaceId
  | Call_updateGuest spaceId guestId updates => updateGuest spaceId guestId updates
  | Call_removeGuest spaceId guestId => removeGuest spaceId guestId
  | Call_sendInvitation invitationConfig => sendInvitation invitationConfig
  | Call_createWebhook webhookConfig => createWebhook webhookConfig
  | Call_delay ms => delay ms;; ret JUndefined
  end.

(** ** [class RateLimitManager] *)

Record Limit : Type := {
  requests : Z;
  window : Z
}.

Record RateLimitManager : Type := {
  limits : gmap string Limit;
  usage : gmap Z bool
}.

(** [new RateLimitManager()] *)
Definition new_RateLimitManager : RateLimitManager :=
  {| limits :=
       {[ "standard" := {| requests := 1000; window := 3600 |};  (* 1000/hour *)
          "premium" := {| requests := 5000; window := 3600 |};   (* 5000/hour *)
          "burst" := {| requests := 100; window := 60 |} ]};     (* 100/minute *)
     usage := ∅ |}.

(** The "Clean old entries" loop: every key of the map is visited once and
    deleted when it is older than the window. *)
Definition clean_old_entries (windowStart : Z) (usage : gmap Z bool) : gmap Z bool :=
  foldr (λ '(timestamp, _) u,
           if timestamp <? windowStart then delete timestamp u else u)
        usage (map_to_list usage).

(** [Math.min(...keys)]; [None] is the [Infinity] of an empty argument
    list. *)
Definition Math_min (keys : list Z) : option Z :=
  foldr (λ k least, Some (from_option (Z.min k) k least)) None keys.

(** The time to wait, as the error message prints it. *)
Definition waitTime_text (oldestRequest : option Z) (limit : Limit) (now : Z) : string :=
  match oldestRequest with
  | Some oldest =>
      let resetTime := oldest + window limit * 1000 in
      let waitTime := resetTime - now in
      pretty waitTime
  | None => "Infinity"
  end.

(** [checkLimit(tier = 'standard')], run when [Date.now()] is [now]. A
    tier that [limits] does not have makes [limit] undefined, and reading
    [limit.window] throws. *)
Definition checkLimit (tier : option string) (now : Z) : M RateLimitManager bool :=
  let tier := default "standard" tier in
  all_limits ← gets limits;
  match all_limits !! tier with
  | None =>
      throw (TypeError "Cannot read properties of undefined (reading 'window')")
  | Some limit =>
      let windowStart := now - window limit * 1000 in
      (* Clean old entries *)
      modify (λ s, {| limits := limits s;
                      usage := clean_old_entries windowStart (usage s) |});;
      current ← gets usage;
      if requests limit <=? Z.of_nat (size current) then
        let oldestRequest := Math_min (map_to_list current).*1 in
        throw (RateLimitError
                 ("Rate limit exceeded. Reset in "
                  +:+ waitTime_text oldestRequest limit now +:+ "ms"))
      else
        modify (λ s, {| limits := limits s;
                        usage := <[now := true]> (usage s) |});;
        ret true
  end.

(** Successive [checkLimit(tier)] calls at the given clock readings, with
    the completion of each. *)
Fixpoint checkLimit_each (tier : option string) (clock : list Z)
    (s : RateLimitManager) : list (Completion bool) * RateLimitManager :=
  match clock with
  | [] => ([], s)
  | now :: later =>
      let '(r, s') := checkLimit tier now s in
      let '(rs, s'') := checkLimit_each tier later s' in
      (r :: rs, s'')
  end.

(** ** [FCGuestManager.chunkArray] *)

Module FCGuestManager.

Section Chunk.
Context {A : Type}.

(** [Array.prototype.slice(start, end)] on integer arguments: negative
    indices count from the end, both ends are clamped to the array. *)
Definition slice (a : list A) (start end_ : Z) : list A :=
  let len := Z.of_nat (length a) in
  let k := if start <? 0 then Z.max (len + start) 0 else Z.min start len in
  let final := if end_ <? 0 then Z.max (len + end_) 0 else Z.min end_ len in
  take (Z.to_nat (final - k)) (drop (Z.to_nat k) a).

(** The [for (let i = 0; i < array.length; i += size)] loop. The loop
    has no bound of its own; [fuel] counts the iterations still allowed
    and [None] stands for a loop that has not finished within them. *)
Fixpoint chunkArray_loop (fuel : nat) (array : list A) (size i : Z)
    (chunks : list (list A)) : option (list (list A)) :=
  match fuel with
  | O => None
  | S fuel' =>
      if i <? Z.of_nat (length array) then
        chunkArray_loop fuel' array size (i + size)
          (chunks ++ [slice array i (i + size)])
      else Some chunks
  end.

(** [chunkArray(array, size)]: with a positive step at most
    [array.length] iterations happen before the exit test fails. *)
Definition chunkArray (array : list A) (size : Z) : option (list (list A)) :=
  chunkArray_loop (S (length array)) array size 0 [].

(** Every chunk but the last one has exactly [size] elements. *)
Definition full_but_last (size : Z) (chunks : list (list A)) : Prop :=
  ∀ (j : nat) (c : list A),
    chunks !! j = Some c → (S j < length chunks)%nat →
    Z.of_nat (length c) = size.

End Chunk.

End FCGuestManager.

(** ** Regular expressions *)

(** A string of the model holds the UTF-8 encoding of the JavaScript
    string; a regular expression without the [u] flag reads the string as
    its UTF-16 code units. *)
Fixpoint utf8_code_points (bytes : list N) : list N :=
  match bytes with
  | [] => []
  | b0 :: rest =>
      if (b0 <? 128)%N then b0 :: utf8_code_points rest
      else if (b0 <? 224)%N then
        match rest with
        | b1 :: rest1 => ((b0 - 192) * 64 + (b1 - 128))%N :: utf8_code_points rest1
        | [] => [b0]
        end
      else if (b0 <? 240)%N then
        match rest with
        | b1 :: b2 :: rest2 =>
            ((b0 - 224) * 4096 + (b1 - 128) * 64 + (b2 - 128))%N
            :: utf8_code_points rest2
        | _ => [b0]
        end
      else
        match rest with
        | b1 :: b2 :: b3 :: rest3 =>
            ((b0 - 240) * 262144 + (b1 - 128) * 4096 + (b2 - 128) * 64 + (b3 - 128))%N
            :: utf8_code_points rest3
        | _ => [b0]
        end
  end.

Definition utf16 (code_point : N) : list N :=
  if (code_point <? 65536)%N then [code_point]
  else [(55296 + (code_point - 65536) / 1024)%N;
        (56320 + (code_point - 65536) mod 1024)%N].

Definition code_units (s : string) : list N :=
  flat_map utf16
    (utf8_code_points (map Ascii.N_of_ascii (String.list_ascii_of_string s))).

(** The patterns the code uses are built from character classes,
    sequence, choice and repetition. *)
Inductive Regex : Type :=
| Void
| Eps
| Class (accepts : N → bool)
| Seq (r1 r2 : Regex)
| Alt (r1 r2 : Regex)
| Star (r : Regex).

(** [r+] *)
Definition Plus (r : Regex) : Regex := Seq r (Star r).

Fixpoint nullable (r : Regex) : bool :=
  match r with
  | Void => false
  | Eps => true
  | Class _ => false
  | Seq r1 r2 => nullable r1 && nullable r2
  | Alt r1 r2 => nullable r1 || nullable r2
  | Star _ => true
  end.

(** What is left of [r] to match once the code unit [c] has been read. *)
Fixpoint derivative (c : N) (r : Regex) : Regex :=
  match r with
  | Void => Void
  | Eps => Void
  | Class accepts => if accepts c then Eps else Void
  | Seq r1 r2 =>
      if nullable r1 then Alt (Seq (derivative c r1) r2) (derivative c r2)
      else Seq (derivative c r1) r2
  | Alt r1 r2 => Alt (derivative c r1) (derivative c r2)
  | Star r0 => Seq (derivative c r0) (Star r0)
  end.

(** Whether the whole of [units] matches [r]: the pattern between [^]
    and [$]. *)
Fixpoint matches (r : Regex) (units : list N) : bool :=
  match units with
  | [] => nullable r
  | c :: rest => matches (derivative c r) rest
  end.

(** [/^r$/.test(s)] *)
Definition RegExp_test (r : Regex) (s : string) : bool := matches r (code_units s).

(** [\s]: the white space and line terminator code units. *)
Definition is_space (c : N) : bool :=
  ((9 <=? c) && (c <=? 13) || (c =? 32) || (c =? 160) || (c =? 5760)
   || (8192 <=? c) && (c <=? 8202) || (c =? 8232) || (c =? 8233)
   || (c =? 8239) || (c =? 8287) || (c =? 12288) || (c =? 65279))%N.

(** [[^\s@]] *)
Definition not_space_at (c : N) : bool := negb (is_space c || (c =? 64)%N).

(** The literal character with code [code]. *)
Definition Lit (code : N) : Regex := Class (N.eqb code).

(** [/^[^\s@]+@[^\s@]+\.[^\s@]+$/] *)
Definition emailRegex : Regex :=
  Seq (Plus (Class not_space_at))
    (Seq (Lit 64)
       (Seq (Plus (Class not_space_at))
          (Seq (Lit 46) (Plus (Class not_space_at))))).

(** ** [class POCExecutor] and the constructor of [FCGuestManager] *)

(** [validateEnvironment()] *)
Definition validateEnvironment : M World unit :=
  env ← gets process_env;
  let requiredEnvVars := ["GATHER_API_KEY"; "FC_CONTACT_EMAIL"] in
  let missing :=
    List.filter (λ varName, negb (truthy (env_var env varName))) requiredEnvVars in
  if (0 <? length missing)%nat then
    throw (Error ("Missing required environment variables: "
                  +:+ String.concat ", " missing))
  else
    (* Validate email format *)
    if negb (RegExp_test emailRegex (ToString (env_var env "FC_CONTACT_EMAIL"))) then
      throw (Error "FC_CONTACT_EMAIL is not a valid email address")
    else ret tt.

Record FcConfig : Type := {
  organizationName : JsValue;
  contactEmail : JsValue;
  brandColor : JsValue;
  logoUrl : JsValue
}.

(** An [FCGuestManager] object. *)
Record GuestManager : Type := {
  gatherApi : GatherAPIClient;
  fcConfig : FcConfig
}.

(** [new FCGuestManager(gatherApiKey)] *)
Definition new_FCGuestManager (gatherApiKey : JsValue) : M World GuestManager :=
  client ← new_GatherAPIClient gatherApiKey;
  env ← gets process_env;
  ret {| gatherApi := client;
         fcConfig :=
           {| organizationName :=
                js_or (env_var env "FC_ORGANIZATION_NAME") (JStr "First Contact");
              contactEmail :=
                js_or (env_var env "FC_CONTACT_EMAIL") (JStr "contact@firstcontact.lgbt");
              brandColor := js_or (env_var env "FC_BRAND_COLOR") (JStr "#FF6B35");
              logoUrl :=
                js_or (env_var env "FC_LOGO_URL")
                  (JStr "https://firstcontact.lgbt/assets/logo.png") |} |}.

(** [this.results] of a [POCExecutor]. *)
Record Results : Type := {
  success : bool;
  space : JsValue;
  fcContact : JsValue;
  report : JsValue;
  errors : list JsValue
}.

(** A [POCExecutor] object; [fcManager] is [null] until
    [initializeManager] has run. *)
Record POCExecutor : Type := {
  fcManager : option GuestManager;
  pocId : string;
  startTime : Z;
  results : Results
}.

(** [new POCExecutor()], when [uuidv4()] gives [uuid] and [Date.now()]
    gives [now]. *)
Definition new_POCExecutor (uuid : string) (now : Z) : POCExecutor :=
  {| fcManager := None; pocId := uuid; startTime := now;
     results := {| success := false; space := JNull; fcContact := JNull;
                   report := JNull; errors := [] |} |}.

(** A method of the executor runs on the executor and the world. *)
Record Execution : Type := {
  executor : POCExecutor;
  surroundings : World
}.

Definition in_surroundings {A} (m : M World A) : M Execution A :=
  λ x, let '(r, w) := m (surroundings x) in
       (r, {| executor := executor x; surroundings := w |}).

Definition set_fcManager (manager : GuestManager) (x : Execution) : Execution :=
  {| executor := {| fcManager := Some manager; pocId := pocId (executor x);
                    startTime := startTime (executor x);
                    results := results (executor x) |};
     surroundings := surroundings x |}.

(** [initializeManager()] *)
Definition initializeManager : M Execution unit :=
  try_catch
    (env ← gets (λ x, process_env (surroundings x));
     manager ← in_surroundings (new_FCGuestManager (env_var env "GATHER_API_KEY"));
     modify (set_fcManager manager))
    (λ error,
       throw (Error ("Failed to initialize FC Guest Manager: " +:+ message error))).

(** A call [this.fcManager.gatherApi.method(...)]: reading [gatherApi]
    off a [null] manager throws; otherwise the method runs on the client
    of the manager. *)
Definition on_gatherApi {A} (m : M Activation A) : M Execution A :=
  λ x, match fcManager (executor x) with
       | None =>
           (Throw (TypeError "Cannot read properties of null (reading 'gatherApi')"), x)
       | Some manager =>
           let '(r, a) := m {| this := gatherApi manager; world := surroundings x |} in
           (r, {| executor :=
                    {| fcManager := Some {| gatherApi := this a;
                                            fcConfig := fcConfig manager |};
                       pocId := pocId (executor x);
                       startTime := startTime (executor x);
                       results := results (executor x) |};
                  surroundings := world a |})
       end.

(** [a === b] where one side is a primitive value: an array or an object
    is equal to nothing but itself. *)
Definition strict_equal (a b : JsValue) : bool :=
  match a, b with
  | JUndefined, JUndefined => true
  | JNull, JNull => true
  | JBool x, JBool y => bool_decide (x = y)
  | JNum x, JNum y => (x =? y)
  | JStr x, JStr y => String.eqb x y
  | _, _ => false
  end.

(** [items.find(predicate)] *)
Fixpoint Array_find {S} (predicate : JsValue → M S bool) (items : list JsValue)
    : M S JsValue :=
  match items with
  | [] => ret JUndefined
  | item :: rest =>
      bind (predicate item)
        (λ found : bool, if found then ret item else Array_find predicate rest)
  end.

(** [verifyImplementation(spaceId)] *)
Definition verifyImplementation (spaceId : JsValue) : M Execution unit :=
  try_catch
    ((* Verify space exists and is accessible *)
     spaceDetails ← on_gatherApi (getSpace spaceId);
     if negb (truthy spaceDetails) then throw (Error "Space verification failed")
     else
       (* Verify guest list contains FC contact *)
       guestList ← on_gatherApi (getGuestList spaceId);
       env ← gets (λ x, process_env (surroundings x));
       guests ← get_property guestList "guests";
       fcGuest ←
         match guests with
         | JUndefined | JNull => ret JUndefined
         | JArr items =>
             Array_find (λ guest,
                           email ← get_property guest "email";
                           ret (strict_equal email (env_var env "FC_CONTACT_EMAIL")))
                        items
         | _ => throw (TypeError "guestList.guests?.find is not a function")
         end;
       if negb (truthy fcGuest) then throw (Error "FC contact not found in guest list")
       else
         role ← get_property fcGuest "role";
         if negb (strict_equal role (JStr "moderator")) then
           throw (Error "FC contact does not have moderator role")
         else ret tt)
    (λ error, throw (Error ("Verification failed: " +:+ message error))).

(** A manager with one small tier, for the examples. *)
Definition two_per_second : RateLimitManager :=
  {| limits := {[ "tiny" := {| requests := 2; window := 1 |} ]}; usage := ∅ |}.

(** ** Vocabulary of the properties *)

(** The state after one more effect. *)
Definition after (e : Event) (s : Activation) : Activation :=
  {| this := this s; world := record_event e (world s) |}.

(** What the next [fetch url init] settles to in state [s]. *)
Definition next_outcome (s : Activation) (url : string) (init : RequestInit)
    : FetchOutcome :=
  network (world s) (served (world s)) url init.

(** The error the [try] block throws on a response that is not [ok] and
    whose body decoded to [responseData]. *)
Definition api_error (r : Response.t) (responseData : JsValue) : JsError :=
  APIError (Response.status r)
    (js_or match responseData with JObj props => assoc "message" props | _ => JUndefined end
           (JStr (Response.statusText r))).

(** Values off which a property can be read. *)
Definition readable (v : JsValue) : Prop := v ≠ JUndefined ∧ v ≠ JNull.

(** How the [try] block of one turn ends, given what its [fetch] settles
    to: with the decoded body, or with the error it throws. *)
Definition settle (o : FetchOutcome) : JsError + JsValue :=
  match o with
  | Rejected failure reason => inl (Error_named failure reason)
  | Responded r =>
      match Response.json r with
      | inl reason => inl (Error_named "FetchError" reason)
      | inr v =>
          if Response.ok r then inr v
          else match v with
               | JUndefined =>
                   inl (TypeError "Cannot read properties of undefined (reading 'message')")
               | JNull =>
                   inl (TypeError "Cannot read properties of null (reading 'message')")
               | _ => inl (api_error r v)
               end
      end
  end.

(** The effects of a request that is retried [retries] times from
    [attempt] on: a [fetch], then for each retry the backoff wait and the
    next [fetch]. *)
Fixpoint backoff_schedule (url : string) (init : RequestInit) (backoff : Z)
    (retries : nat) (attempt : Z) : list Event :=
  match retries with
  | O => [EvFetch url init]
  | S retries' =>
      EvFetch url init :: EvDelay (backoff * 2 ^ attempt)
      :: backoff_schedule url init backoff retries' (attempt + 1)
  end.

(** The number of [fetch] calls among some effects. *)
Definition fetch_count (effects : list Event) : nat :=
  length (List.filter (λ e, match e with EvFetch _ _ => true | EvDelay _ => false end)
            effects).

(** An effect of a request to [url] with [init]. *)
Definition request_effect (url : string) (init : RequestInit) (e : Event) : Prop :=
  e = EvFetch url init ∨ ∃ ms, e = EvDelay ms.

(** A client as the constructor builds it from the key ["k"] in an empty
    environment, and a world whose service answers the [n]-th [fetch]
    with [answers n]. *)
Definition sample_client : GatherAPIClient :=
  {| apiKey := JStr "k"; baseUrl := JStr "https://gather.town/api/v2";
     retryConfig := {| maxRetries := 3; backoffMs := 1000;
                       retryCondition := default_retryCondition |} |}.

Definition sample_world (env : gmap string string) (answers : nat → FetchOutcome)
    : World :=
  {| process_env := env; network := λ n _ _, answers n;
     served := 0; trace := [] |}.

Definition sample_state (answers : nat → FetchOutcome) : Activation :=
  {| this := sample_client; world := sample_world ∅ answers |}.

Definition respond (status : Z) (statusText : string) (json : string + JsValue)
    : FetchOutcome :=
  Responded {| Response.status := status; Response.statusText := statusText;
               Response.json := json |}.

(** The request that [addGuest] makes. *)
Definition guests_endpoint (spaceId : JsValue) : string :=
  "/spaces/" +:+ ToString spaceId +:+ "/guests".

Definition guests_options (guestConfig : JsValue) : RequestInit :=
  {| method := Some "POST"; headers := None;
     body := JSON_stringify (addGuest_payload guestConfig) |}.

(** The guests that [addGuest] sends: the elements of an array argument,
    or the argument alone. *)
Definition guest_items (guestConfig : JsValue) : list JsValue :=
  match guestConfig with
  | JArr items => items
  | _ => [guestConfig]
  end.

(** The time spent waiting among some effects. *)
Definition total_wait (effects : list Event) : Z :=
  foldr (λ e ms, match e with EvDelay wait => wait + ms | EvFetch _ _ => ms end)
        0 effects.

(** What the [j]-th [fetch] from state [s] on settles to. *)
Definition answer (s : Activation) (url : string) (init : RequestInit) (j : nat)
    : FetchOutcome :=
  network (world s) (served (world s) + j)%nat url init.

(** The state after a request that was retried [retries] times from
    [attempt] on. *)
Definition scheduled (s : Activation) (url : string) (init : RequestInit)
    (retries : nat) (attempt : Z) : Activation :=
  {| this := this s;
     world := {| process_env := process_env (world s);
                 network := network (world s);
                 served := served (world s) + S retries;
                 trace := trace (world s)
                          ++ backoff_schedule url init
                               (backoffMs (retryConfig (this s))) retries attempt |} |}.

(** The completion of a request whose last [try] block ended as given. *)
Definition completion_of (end_of_try : JsError + JsValue) : Completion JsValue :=
  match end_of_try with
  | inr responseData => Normal responseData
  | inl error => Throw error
  end.

(** An answer that the default retry condition sends back to the top of
    the loop. *)
Definition retried (o : FetchOutcome) : Prop :=
  ∃ error, settle o = inl error ∧ default_retryCondition error = true.

(** [P] holds of the request of the effect when the effect is a [fetch]. *)
Definition sent_with (P : string → RequestInit → Prop) (e : Event) : Prop :=
  match e with
  | EvFetch url init => P url init
  | EvDelay _ => True
  end.

(** The strings a pattern denotes. *)
Inductive Matches : Regex → list N → Prop :=
| Matches_eps : Matches Eps []
| Matches_class accepts c : accepts c = true → Matches (Class accepts) [c]
| Matches_seq r1 r2 s1 s2 :
    Matches r1 s1 → Matches r2 s2 → Matches (Seq r1 r2) (s1 ++ s2)
| Matches_alt_l r1 r2 s : Matches r1 s → Matches (Alt r1 r2) s
| Matches_alt_r r1 r2 s : Matches r2 s → Matches (Alt r1 r2) s
| Matches_star_nil r : Matches (Star r) []
| Matches_star_cons r s1 s2 :
    Matches r s1 → Matches (Star r) s2 → Matches (Star r) (s1 ++ s2).

(** A code unit that is neither white space nor [@]. *)
Definition plain (c : N) : Prop := not_space_at c = true.

(** Whether the variable is set to a non-empty string. *)
Definition is_set (env : gmap string string) (varName : string) : bool :=
  truthy (env_var env varName).

(** [v.key] of a value off which properties can be read. *)
Definition property (v : JsValue) (key : string) : JsValue :=
  match v with
  | JObj props => assoc key props
  | _ => JUndefined
  end.

(** The execution after one more effect. *)
Definition advance (e : Event) (x : Execution) : Execution :=
  {| executor := executor x; surroundings := record_event e (surroundings x) |}.

(** The guest entries whose [email] is the given address. *)
Definition has_email (email : string) (guest : JsValue) : bool :=
  strict_equal (property guest "email") (JStr email).

(** An executor whose manager holds [sample_client], in a world where
    [FC_CONTACT_EMAIL] is set. *)
Definition sample_manager : GuestManager :=
  {| gatherApi := sample_client;
     fcConfig := {| organizationName := JStr "First Contact";
                    contactEmail := JStr "contact@firstcontact.lgbt";
                    brandColor := JStr "#FF6B35";
                    logoUrl := JStr "https://firstcontact.lgbt/assets/logo.png" |} |}.

Definition sample_execution (answers : nat → FetchOutcome) : Execution :=
  {| executor := {| fcManager := Some sample_manager; pocId := "poc-1";
                    startTime := 0;
                    results := results (new_POCExecutor "poc-1" 0) |};
     surroundings :=
       sample_world {[ "GATHER_API_KEY" := "k";
                       "FC_CONTACT_EMAIL" := "contact@firstcontact.lgbt" ]}
         answers |}.

(** A guest list in which the contact appears twice, first as a member. *)
Definition shadowed_guests : list JsValue :=
  [JObj [("email", JStr "someone@example.org"); ("role", JStr "moderator")];
   JObj [("email", JStr "contact@firstcontact.lgbt"); ("role", JStr "member")];
   JObj [("email", JStr "contact@firstcontact.lgbt"); ("role", JStr "moderator")]].

Definition shadowed_answers (n : nat) : FetchOutcome :=
  match n with
  | O => respond 200 "OK" (inr (JObj [("id", JStr "s1")]))
  | S _ => respond 200 "OK" (inr (JObj [("guests", JArr shadowed_guests)]))
  end.

(** * Properties *)

(** ** The retry loop of [makeRequest] *)

Module ClientSpec.

Ltac run_turn :=
  cbn [makeRequest_loop];
  unfold mbind, M_bind, mret, M_ret, bind, ret, throw, gets, try_catch,
    in_world, fetch, Response_json, get_property, delay, modify, next_outcome in *;
  cbn beta iota.

(** One turn of the loop, as an equation. *)
Lemma makeRequest_loop_turn fuel url init attempt s :
  makeRequest_loop (S fuel) url init attempt s =
  let config := retryConfig (this s) in
  if attempt <=? maxRetries config then
    match settle (next_outcome s url init) with
    | inr v => (Normal v, after (EvFetch url init) s)
    | inl e =>
        if (attempt =? maxRetries config) || negb (retryCondition config e) then
          (Throw e, after (EvFetch url init) s)
        else
          makeRequest_loop fuel url init (attempt + 1)
            (after (EvDelay (backoffMs config * 2 ^ attempt))
               (after (EvFetch url init) s))
    end
  else (Normal JUndefined, s).
Proof.
  run_turn. unfold settle.
  destruct (attempt <=? maxRetries (retryConfig (this s))); [|done].
  destruct (network (world s) (served (world s)) url init) as [r|failure reason];
    cbn.
  - destruct (Response.json r) as [reason|v]; cbn.
    + by destruct (_ || _).
    + destruct (Response.ok r); cbn; [done|].
      unfold api_error.
      destruct v; cbn; by destruct (_ || _).
  - by destruct (_ || _).
Qed.

(** The loop never writes to [this], to the environment or to the
    service, and its effects are [fetch] calls with the same arguments and
    timer waits. *)
Lemma makeRequest_loop_frame fuel url init :
  ∀ attempt s r s',
    makeRequest_loop fuel url init attempt s = (r, s') →
    this s' = this s
    ∧ process_env (world s') = process_env (world s)
    ∧ network (world s') = network (world s)
    ∧ ∃ effects,
        trace (world s') = trace (world s) ++ effects
        ∧ Forall (request_effect url init) effects.
Proof.
  induction fuel as [|fuel IH]; intros attempt s r s' Hrun.
  { injection Hrun as <- <-. repeat split; try done.
    exists []. by rewrite app_nil_r. }
  rewrite makeRequest_loop_turn in Hrun. cbn zeta in Hrun.
  destruct (attempt <=? _).
  - destruct (settle _) as [e|v].
    + destruct (_ || _).
      * injection Hrun as <- <-. repeat split; try done.
        exists [EvFetch url init]. split; [done|]. constructor; [by left|done].
      * apply IH in Hrun as (Hthis & Henv & Hnet & effects & Htrace & Hall).
        repeat split; try done.
        exists (EvFetch url init
                :: EvDelay (backoffMs (retryConfig (this s)) * 2 ^ attempt)
                :: effects).
        split.
        -- rewrite Htrace. cbn. by rewrite <- !app_assoc.
        -- constructor; [by left|]. constructor; [right; eauto|done].
    + injection Hrun as <- <-. repeat split; try done.
      exists [EvFetch url init]. split; [done|]. constructor; [by left|done].
  - injection Hrun as <- <-. repeat split; try done.
    exists []. by rewrite app_nil_r.
Qed.

(** The fuel [makeRequest] gives its loop is enough: the loop ends. *)
Lemma makeRequest_loop_ends fuel url init :
  ∀ attempt s,
    (Z.to_nat (maxRetries (retryConfig (this s)) + 1 - attempt) < fuel)%nat →
    (makeRequest_loop fuel url init attempt s).1 ≠ OutOfFuel.
Proof.
  induction fuel as [|fuel IH]; intros attempt s Hfuel; [lia|].
  rewrite makeRequest_loop_turn. cbn zeta.
  destruct (Z.leb_spec attempt (maxRetries (retryConfig (this s)))); [|done].
  destruct (settle _) as [e|v]; [|done].
  destruct (_ || _); [done|].
  apply IH. cbn. lia.
Qed.

Lemma makeRequest_eq endpoint options s :
  makeRequest endpoint options s
  = makeRequest_loop (S (Z.to_nat (maxRetries (retryConfig (this s)) + 1)))
      (request_url (this s) endpoint)
      (spread (defaultOptions (this s)) options) 0 s.
Proof. reflexivity. Qed.

Lemma makeRequest_ends endpoint options s :
  (makeRequest endpoint options s).1 ≠ OutOfFuel.
Proof. rewrite makeRequest_eq. apply makeRequest_loop_ends. lia. Qed.

Lemma makeRequest_frame endpoint options s r s' :
  makeRequest endpoint options s = (r, s') →
  this s' = this s
  ∧ ∃ effects,
      trace (world s') = trace (world s) ++ effects
      ∧ Forall (request_effect (request_url (this s) endpoint)
                  (spread (defaultOptions (this s)) options)) effects.
Proof.
  rewrite makeRequest_eq. intros Hrun.
  apply makeRequest_loop_frame in Hrun as (Hthis & _ & _ & Heffects). done.
Qed.

(** When the exit test passes, the turn starts with a [fetch]. *)
Lemma makeRequest_loop_first_fetch fuel url init attempt s r s' :
  attempt ≤ maxRetries (retryConfig (this s)) →
  makeRequest_loop (S fuel) url init attempt s = (r, s') →
  ∃ effects,
    trace (world s') = trace (world s) ++ EvFetch url init :: effects
    ∧ Forall (request_effect url init) effects.
Proof.
  intros Hle. rewrite makeRequest_loop_turn. cbn zeta.
  destruct (Z.leb_spec attempt (maxRetries (retryConfig (this s)))); [|lia].
  destruct (settle _) as [e|v].
  - destruct (_ || _).
    + intros [= <- <-]. by exists [].
    + intros Hrun.
      apply makeRequest_loop_frame in Hrun as (_ & _ & _ & effects & Htrace & Hall).
      exists (EvDelay (backoffMs (retryConfig (this s)) * 2 ^ attempt) :: effects).
      split.
      * rewrite Htrace. cbn. by rewrite <- !app_assoc.
      * constructor; [right; eauto|done].
  - intros [= <- <-]. by exists [].
Qed.

Lemma settle_error_response r v :
  Response.ok r = false → Response.json r = inr v → readable v →
  settle (Responded r) = inl (api_error r v).
Proof.
  intros Hok Hjson [Hu Hn]. unfold settle. rewrite Hjson, Hok.
  by destruct v.
Qed.

Lemma not_ok_status r :
  Response.status r < 200 ∨ 300 ≤ Response.status r → Response.ok r = false.
Proof.
  intros H. unfold Response.ok.
  destruct (Z.leb_spec 200 (Response.status r)),
    (Z.ltb_spec (Response.status r) 300); done || lia.
Qed.

(** An error without [status], and an error with status 400, are not
    retried by the default condition. *)
Lemma default_retryCondition_no_status e :
  status e = None → default_retryCondition e = false.
Proof. unfold default_retryCondition. by intros ->. Qed.

Lemma settle_unretried_400 r e :
  Response.status r = 400 → settle (Responded r) = inl e →
  default_retryCondition e = false.
Proof.
  intros Hst. unfold settle.
  destruct (Response.json r) as [reason|v]; [by intros [= <-]|].
  destruct (Response.ok r); [done|].
  destruct v; intros [= <-]; try done;
    unfold default_retryCondition, api_error; cbn; by rewrite Hst.
Qed.

(** Retries run out: when every answer from the [served]-th on is an
    error response with status 500 and a body that decodes as JSON, the
    loop entered at [attempt] performs the [maxRetries - attempt] retries
    that are left, waiting [backoffMs * 2 ^ k] after attempt [k], and
    throws the [APIError] of the last response. *)
Lemma makeRequest_loop_exhausts url init (retries : nat) :
  ∀ attempt s fuel,
    retryCondition (retryConfig (this s)) = default_retryCondition →
    0 ≤ attempt →
    attempt + Z.of_nat retries = maxRetries (retryConfig (this s)) →
    (∀ k, ∃ r v, network (world s) k url init = Responded r
                 ∧ Response.status r = 500
                 ∧ Response.json r = inr v ∧ readable v) →
    (retries < fuel)%nat →
    ∃ r v,
      network (world s) (served (world s) + retries)%nat url init = Responded r
      ∧ Response.json r = inr v
      ∧ makeRequest_loop fuel url init attempt s
        = (Throw (api_error r v),
           {| this := this s;
              world := {| process_env := process_env (world s);
                          network := network (world s);
                          served := served (world s) + S retries;
                          trace := trace (world s)
                                   ++ backoff_schedule url init
                                        (backoffMs (retryConfig (this s)))
                                        retries attempt |} |}).
Proof.
  induction retries as [|retries IH]; intros attempt s fuel Hcond Hat Hmax Hnet Hfuel;
    (destruct fuel as [|fuel]; [lia|]);
    destruct (Hnet (served (world s))) as (r & v & Hr & Hst & Hjson & Hread);
    rewrite makeRequest_loop_turn; cbn zeta; unfold next_outcome;
    rewrite Hr, (settle_error_response r v) by (try apply not_ok_status; done || lia);
    (destruct (Z.leb_spec attempt (maxRetries (retryConfig (this s)))); [|lia]).
  - exists r, v. rewrite Nat.add_0_r. split; [done|]. split; [done|].
    destruct (Z.eqb_spec attempt (maxRetries (retryConfig (this s)))); [|lia].
    cbn. unfold after, record_event. cbn. do 3 f_equal. lia.
  - destruct (Z.eqb_spec attempt (maxRetries (retryConfig (this s)))); [lia|].
    rewrite Hcond. unfold default_retryCondition at 1, api_error at 1. cbn.
    rewrite Hst. cbn.
    edestruct (IH (attempt + 1)
                 (after (EvDelay (backoffMs (retryConfig (this s)) * 2 ^ attempt))
                    (after (EvFetch url init) s)) fuel)
      as (r' & v' & Hr' & Hjson' & Hrun); cbn; [done|lia|lia|done|lia|].
    exists r', v'. cbn in Hr'.
    replace (served (world s) + S retries)%nat
      with (S (served (world s)) + retries)%nat by lia.
    split; [done|]. split; [done|].
    rewrite Hrun. cbn. do 3 f_equal; [lia|].
    by rewrite <- !app_assoc.
Qed.

(** Every request answered 500 with a JSON body on every attempt is
    tried [maxRetries + 1] times, with the wait [backoffMs * 2 ^ k]
    between attempts [k] and [k + 1], and fails with an [APIError] of
    status 500. *)
Lemma makeRequest_500_json_exhausts endpoint options s :
  retryCondition (retryConfig (this s)) = default_retryCondition →
  0 ≤ maxRetries (retryConfig (this s)) →
  (∀ k, ∃ r v,
      network (world s) k (request_url (this s) endpoint)
        (spread (defaultOptions (this s)) options) = Responded r
      ∧ Response.status r = 500
      ∧ Response.json r = inr v ∧ readable v) →
  ∃ e s',
    makeRequest endpoint options s = (Throw e, s')
    ∧ name e = "APIError" ∧ status e = Some 500
    ∧ trace (world s')
      = trace (world s)
        ++ backoff_schedule (request_url (this s) endpoint)
             (spread (defaultOptions (this s)) options)
             (backoffMs (retryConfig (this s)))
             (Z.to_nat (maxRetries (retryConfig (this s)))) 0.
Proof.
  intros Hcond Hmax Hnet.
  destruct (makeRequest_loop_exhausts _ _
              (Z.to_nat (maxRetries (retryConfig (this s)))) 0 s
              (S (Z.to_nat (maxRetries (retryConfig (this s)) + 1)))
              Hcond ltac:(lia) ltac:(lia) Hnet ltac:(lia))
    as (r & v & Hr & Hjson & Hrun).
  rewrite makeRequest_eq, Hrun.
  eexists _, _. split; [done|]. cbn. split; [done|].
  destruct (Hnet (served (world s) + Z.to_nat (maxRetries (retryConfig (this s))))%nat)
    as (r' & v' & Hr' & Hst & _).
  rewrite Hr in Hr'. injection Hr' as <-. by rewrite Hst.
Qed.

(** A schedule of [retries] retries has [retries + 1] [fetch] calls, and
    its [k]-th wait lasts [backoff * 2 ^ (attempt + k)]. *)
Lemma backoff_schedule_fetches url init backoff retries :
  ∀ attempt,
    fetch_count (backoff_schedule url init backoff retries attempt) = S retries.
Proof.
  induction retries as [|retries IH]; intros attempt; [done|].
  unfold fetch_count in *. cbn. by rewrite IH.
Qed.

Lemma backoff_schedule_waits url init backoff retries :
  ∀ attempt (k : nat),
    (k < retries)%nat →
    backoff_schedule url init backoff retries attempt !! (2 * k + 1)%nat
    = Some (EvDelay (backoff * 2 ^ (attempt + Z.of_nat k))).
Proof.
  induction retries as [|retries IH]; intros attempt k Hk; [lia|].
  destruct k as [|k].
  - cbn. by rewrite Z.add_0_r.
  - replace (2 * S k + 1)%nat with (S (S (2 * k + 1))) by lia.
    cbn -[Nat.mul Nat.add]. rewrite IH by lia.
    by replace (attempt + 1 + Z.of_nat k) with (attempt + Z.of_nat (S k)) by lia.
Qed.

(** *** Success *)

(** C6: a request whose first answer is a 2xx response with a body that
    decodes as JSON returns the decoded body on that attempt: the only
    effect is one [fetch], no wait and no retry follow. *)
Theorem makeRequest_2xx_first_attempt endpoint options s r v :
  0 ≤ maxRetries (retryConfig (this s)) →
  next_outcome s (request_url (this s) endpoint)
    (spread (defaultOptions (this s)) options) = Responded r →
  Response.ok r = true →
  Response.json r = inr v →
  makeRequest endpoint options s
  = (Normal v,
     after (EvFetch (request_url (this s) endpoint)
              (spread (defaultOptions (this s)) options)) s).
Proof.
  intros Hmax Hnet Hok Hjson.
  rewrite makeRequest_eq, makeRequest_loop_turn. cbn zeta.
  destruct (Z.leb_spec 0 (maxRetries (retryConfig (this s)))); [|lia].
  rewrite Hnet. unfold settle. by rewrite Hjson, Hok.
Qed.

Lemma makeRequest_2xx_first_attempt_witness :
  makeRequest "/spaces/space-1" no_options
    (sample_state (λ _, respond 200 "OK" (inr (JObj [("id", JStr "space-1")]))))
  = (Normal (JObj [("id", JStr "space-1")]),
     after (EvFetch "https://gather.town/api/v2/spaces/space-1"
              (defaultOptions sample_client))
       (sample_state (λ _, respond 200 "OK" (inr (JObj [("id", JStr "space-1")]))))).
Proof.
  apply (makeRequest_2xx_first_attempt "/spaces/space-1" no_options
           (sample_state (λ _, respond 200 "OK" (inr (JObj [("id", JStr "space-1")]))))
           {| Response.status := 200; Response.statusText := "OK";
              Response.json := inr (JObj [("id", JStr "space-1")]) |});
    [cbn; lia | reflexivity | reflexivity | reflexivity].
Defined.

(** *** Server errors *)

(** C1, at an input where the code departs from it: the service answers
    every attempt with status 500 and a body that is not JSON (an HTML
    error page). [response.json()] rejects before the status is looked at,
    the error has no [status], and the request is given up after the
    first attempt: one [fetch], no wait, no retry, and no status 500 on
    the error. *)
Theorem makeRequest_500_unparsed_body_gives_up :
  makeRequest "/spaces" no_options
    (sample_state (λ _, respond 500 "Internal Server Error"
                          (inl "invalid json response body")))
  = (Throw {| name := "FetchError"; message := "invalid json response body";
              status := None; data := None |},
     after (EvFetch "https://gather.town/api/v2/spaces" (defaultOptions sample_client))
       (sample_state (λ _, respond 500 "Internal Server Error"
                             (inl "invalid json response body")))).
Proof. reflexivity. Qed.

(** *** Rate limiting by the server *)

(** A 429 answer with a JSON body, then a 2xx answer with a JSON body:
    the request waits [backoffMs * 2 ^ 0], is sent again and returns the
    body of the second answer. *)
Lemma makeRequest_429_json_then_200 endpoint options s r1 v1 r2 v2 :
  retryCondition (retryConfig (this s)) = default_retryCondition →
  1 ≤ maxRetries (retryConfig (this s)) →
  network (world s) (served (world s)) (request_url (this s) endpoint)
    (spread (defaultOptions (this s)) options) = Responded r1 →
  Response.status r1 = 429 → Response.json r1 = inr v1 → readable v1 →
  network (world s) (S (served (world s))) (request_url (this s) endpoint)
    (spread (defaultOptions (this s)) options) = Responded r2 →
  Response.ok r2 = true → Response.json r2 = inr v2 →
  makeRequest endpoint options s
  = (Normal v2,
     after (EvFetch (request_url (this s) endpoint)
              (spread (defaultOptions (this s)) options))
       (after (EvDelay (backoffMs (retryConfig (this s)) * 2 ^ 0))
          (after (EvFetch (request_url (this s) endpoint)
                    (spread (defaultOptions (this s)) options)) s))).
Proof.
  intros Hcond Hmax Hr1 Hst1 Hjson1 Hread1 Hr2 Hok2 Hjson2.
  rewrite makeRequest_eq, makeRequest_loop_turn. cbn zeta. unfold next_outcome.
  destruct (Z.leb_spec 0 (maxRetries (retryConfig (this s)))); [|lia].
  rewrite Hr1, (settle_error_response r1 v1)
    by (try apply not_ok_status; done || lia).
  destruct (Z.eqb_spec 0 (maxRetries (retryConfig (this s)))); [lia|].
  rewrite Hcond. unfold default_retryCondition at 1, api_error at 1. cbn.
  rewrite Hst1. cbn.
  destruct (Z.to_nat (maxRetries (retryConfig (this s)) + 1)) as [|fuel] eqn:Hfuel; [lia|].
  rewrite makeRequest_loop_turn. cbn.
  destruct (Z.leb_spec (0 + 1) (maxRetries (retryConfig (this s)))); [|lia].
  rewrite Hr2. cbn. by rewrite Hjson2, Hok2.
Qed.

(** C7, at an input where the code departs from it: the first answer is
    a 429 whose body is not JSON (a plain-text notice), the second would
    be a 200 with a JSON body. The request fails on the first attempt and
    the second answer is never asked for: the body is parsed before the
    status is read, as for a 500 answer. *)
Theorem makeRequest_429_unparsed_body_gives_up :
  makeRequest "/spaces" no_options
    (sample_state (λ n, match n with
                        | O => respond 429 "Too Many Requests"
                                 (inl "invalid json response body")
                        | S _ => respond 200 "OK" (inr (JObj [("id", JStr "space-1")]))
                        end))
  = (Throw {| name := "FetchError"; message := "invalid json response body";
              status := None; data := None |},
     after (EvFetch "https://gather.town/api/v2/spaces" (defaultOptions sample_client))
       (sample_state (λ n, match n with
                           | O => respond 429 "Too Many Requests"
                                    (inl "invalid json response body")
                           | S _ => respond 200 "OK" (inr (JObj [("id", JStr "space-1")]))
                           end))).
Proof. reflexivity. Qed.

(** *** Rejected requests: status 400 *)

Lemma addGuest_eq spaceId guestConfig s :
  addGuest spaceId guestConfig s
  = match makeRequest (guests_endpoint spaceId) (guests_options guestConfig) s with
    | (Throw error, s') =>
        (Throw
           (if bool_decide (status error = Some 400) then
              ValidationError (JStr "Invalid guest configuration") guestConfig
            else if bool_decide (status error = Some 403) then
              PermissionError (JStr "Insufficient permissions to add guests")
            else if bool_decide (status error = Some 409) then
              ConflictError (JStr "Guest already exists in space")
            else error), s')
    | r => r
    end.
Proof.
  unfold addGuest, try_catch, guests_endpoint, guests_options.
  destruct (makeRequest _ _ s) as [[v|error|] s']; try done.
  unfold throw. by repeat case_bool_decide.
Qed.

(** C2 as written fails: [makeRequest] answers a 400 with a plain
    [APIError]; it is not a [ValidationError] and carries no payload. *)
Lemma makeRequest_400_is_APIError :
  makeRequest "/spaces"
    {| method := Some "POST"; headers := None;
       body := JSON_stringify (JObj [("name", JNum 7)]) |}
    (sample_state (λ _, respond 400 "Bad Request"
                          (inr (JObj [("message", JStr "name must be a string")]))))
  = (Throw {| name := "APIError"; message := "name must be a string";
              status := Some 400; data := None |},
     after (EvFetch "https://gather.town/api/v2/spaces"
              (spread (defaultOptions sample_client)
                 {| method := Some "POST"; headers := None;
                    body := JSON_stringify (JObj [("name", JNum 7)]) |}))
       (sample_state (λ _, respond 400 "Bad Request"
                             (inr (JObj [("message", JStr "name must be a string")])))))
  ∧ ∀ msg payload,
      {| name := "APIError"; message := "name must be a string";
         status := Some 400; data := None |} ≠ ValidationError msg payload.
Proof. split; [reflexivity | discriminate]. Qed.

(** C2, amended: a request whose first answer has status 400 fails on
    that attempt, after one [fetch] and without wait or retry. The error
    [makeRequest] throws is never a [ValidationError] and has no [data];
    when the body of the answer decodes as JSON (to something other than
    [null]) it is the [APIError] of status 400. It is [addGuest] that
    turns that error into a [ValidationError], and the [data] it attaches
    is its [guestConfig] argument. *)
Theorem makeRequest_400_fails_at_once endpoint options s r :
  retryCondition (retryConfig (this s)) = default_retryCondition →
  0 ≤ maxRetries (retryConfig (this s)) →
  next_outcome s (request_url (this s) endpoint)
    (spread (defaultOptions (this s)) options) = Responded r →
  Response.status r = 400 →
  ∃ e,
    makeRequest endpoint options s
    = (Throw e,
       after (EvFetch (request_url (this s) endpoint)
                (spread (defaultOptions (this s)) options)) s)
    ∧ name e ≠ "ValidationError" ∧ data e = None
    ∧ (∀ v, Response.json r = inr v → readable v →
         e = api_error r v ∧ name e = "APIError" ∧ status e = Some 400)
    ∧ (∀ spaceId guestConfig v,
         endpoint = guests_endpoint spaceId →
         options = guests_options guestConfig →
         Response.json r = inr v → readable v →
         addGuest spaceId guestConfig s
         = (Throw (ValidationError (JStr "Invalid guest configuration") guestConfig),
            after (EvFetch (request_url (this s) endpoint)
                     (spread (defaultOptions (this s)) options)) s)
         ∧ data (ValidationError (JStr "Invalid guest configuration") guestConfig)
           = Some guestConfig).
Proof.
  intros Hcond Hmax Hnet Hst.
  assert (Hok : Response.ok r = false) by (apply not_ok_status; lia).
  destruct (settle (Responded r)) as [e|v] eqn:Hsettle; last first.
  { unfold settle in Hsettle. rewrite Hok in Hsettle.
    destruct (Response.json r) as [?|[]]; done. }
  assert (Hrun : makeRequest endpoint options s
                 = (Throw e, after (EvFetch (request_url (this s) endpoint)
                                      (spread (defaultOptions (this s)) options)) s)).
  { rewrite makeRequest_eq, makeRequest_loop_turn. cbn zeta.
    destruct (Z.leb_spec 0 (maxRetries (retryConfig (this s)))); [|lia].
    rewrite Hnet, Hsettle, Hcond, (settle_unretried_400 r e Hst Hsettle).
    by rewrite orb_true_r. }
  assert (Hjson : ∀ v, Response.json r = inr v → readable v → e = api_error r v).
  { intros v Hv Hread. rewrite (settle_error_response r v Hok Hv Hread) in Hsettle.
    by injection Hsettle. }
  exists e. split; [done|]. split; [|split; [|split]].
  - unfold settle in Hsettle. rewrite Hok in Hsettle.
    destruct (Response.json r) as [?|[]]; by injection Hsettle as <-.
  - unfold settle in Hsettle. rewrite Hok in Hsettle.
    destruct (Response.json r) as [?|[]]; by injection Hsettle as <-.
  - intros v Hv Hread. rewrite (Hjson v Hv Hread). cbn. by rewrite Hst.
  - intros spaceId guestConfig v -> -> Hv Hread.
    rewrite addGuest_eq, Hrun, (Hjson v Hv Hread). cbn. by rewrite Hst.
Qed.

Lemma makeRequest_400_fails_at_once_witness :
  ∃ e,
    makeRequest (guests_endpoint (JStr "space-1")) (guests_options (JObj []))
      (sample_state (λ _, respond 400 "Bad Request" (inr (JObj []))))
    = (Throw e,
       after (EvFetch (request_url sample_client (guests_endpoint (JStr "space-1")))
                (spread (defaultOptions sample_client) (guests_options (JObj []))))
         (sample_state (λ _, respond 400 "Bad Request" (inr (JObj [])))))
    ∧ name e ≠ "ValidationError".
Proof.
  destruct (makeRequest_400_fails_at_once
              (guests_endpoint (JStr "space-1")) (guests_options (JObj []))
              (sample_state (λ _, respond 400 "Bad Request" (inr (JObj []))))
              {| Response.status := 400; Response.statusText := "Bad Request";
                 Response.json := inr (JObj []) |}
              eq_refl ltac:(cbn; lia) eq_refl eq_refl)
    as (e & Hrun & Hname & _).
  exists e. split; [exact Hrun | exact Hname].
Defined.

(** *** Network failures *)

(** C3 as written fails: the first [fetch] is rejected (connection
    refused) while three retries remain; the request fails at once, after
    that one [fetch] and without any wait. *)
Lemma network_failure_fails_first_attempt :
  makeRequest "/spaces" no_options
    (sample_state (λ _, Rejected "FetchError" "connect ECONNREFUSED"))
  = (Throw {| name := "FetchError"; message := "connect ECONNREFUSED";
              status := None; data := None |},
     after (EvFetch "https://gather.town/api/v2/spaces" (defaultOptions sample_client))
       (sample_state (λ _, Rejected "FetchError" "connect ECONNREFUSED")))
  ∧ 0 < maxRetries (retryConfig sample_client).
Proof. split; [reflexivity | cbn; lia]. Qed.

(** C3, amended: a network-level failure is not retried. On whichever
    attempt [fetch] is rejected, and whether or not attempts remain, the
    rejection has no [status], the retry condition is false for it, and
    the loop rethrows it at once: after that [fetch] there is no backoff
    wait and no further attempt. *)
Theorem network_failure_not_retried fuel url init attempt s failure reason :
  retryCondition (retryConfig (this s)) = default_retryCondition →
  attempt ≤ maxRetries (retryConfig (this s)) →
  next_outcome s url init = Rejected failure reason →
  makeRequest_loop (S fuel) url init attempt s
  = (Throw (Error_named failure reason), after (EvFetch url init) s).
Proof.
  intros Hcond Hle Hnet. rewrite makeRequest_loop_turn. cbn zeta.
  destruct (Z.leb_spec attempt (maxRetries (retryConfig (this s)))); [|lia].
  rewrite Hnet, Hcond. cbn. by rewrite orb_true_r.
Qed.

Lemma network_failure_not_retried_witness :
  makeRequest_loop 5 "https://gather.town/api/v2/spaces"
    (defaultOptions sample_client) 0
    (sample_state (λ _, Rejected "FetchError" "getaddrinfo ENOTFOUND gather.town"))
  = (Throw (Error_named "FetchError" "getaddrinfo ENOTFOUND gather.town"),
     after (EvFetch "https://gather.town/api/v2/spaces" (defaultOptions sample_client))
       (sample_state (λ _, Rejected "FetchError" "getaddrinfo ENOTFOUND gather.town"))).
Proof.
  apply (network_failure_not_retried 4 "https://gather.town/api/v2/spaces"
           (defaultOptions sample_client) 0
           (sample_state (λ _, Rejected "FetchError" "getaddrinfo ENOTFOUND gather.town")));
    [reflexivity | cbn; lia | reflexivity].
Defined.

(** *** Construction *)

(** C4 as written fails: with the empty string as key and
    [GATHER_API_KEY] set in the environment, construction succeeds and the
    client holds the key of the environment. *)
Lemma new_GatherAPIClient_empty_key_uses_env :
  new_GatherAPIClient (JStr EmptyString)
    (sample_world {[ "GATHER_API_KEY" := "env-key" ]}
       (λ _, Rejected "FetchError" "offline"))
  = (Normal {| apiKey := JStr "env-key";
               baseUrl := JStr "https://gather.town/api/v2";
               retryConfig := {| maxRetries := 3; backoffMs := 1000;
                                 retryCondition := default_retryCondition |} |},
     sample_world {[ "GATHER_API_KEY" := "env-key" ]}
       (λ _, Rejected "FetchError" "offline")).
Proof. reflexivity. Qed.

(** C4, amended: a key argument that is absent or empty (any falsy
    value) is replaced by the environment variable [GATHER_API_KEY].
    Construction fails exactly when that variable is unset or empty too,
    with a plain [Error] whose message is "Gather.Town API key is
    required" (the code has no [ConfigurationError] class); otherwise it
    succeeds with the key of the environment. Either way the world is
    left as it was: no [fetch] has been made. *)
Theorem new_GatherAPIClient_falsy_key apiKey w :
  truthy apiKey = false →
  new_GatherAPIClient apiKey w
  = match process_env w !! "GATHER_API_KEY" with
    | Some (String c key) =>
        (Normal {| apiKey := JStr (String c key);
                   baseUrl := js_or (env_var (process_env w) "GATHER_BASE_URL")
                                (JStr "https://gather.town/api/v2");
                   retryConfig := {| maxRetries := 3; backoffMs := 1000;
                                     retryCondition := default_retryCondition |} |},
         w)
    | Some EmptyString | None =>
        (Throw {| name := "Error"; message := "Gather.Town API key is required";
                  status := None; data := None |}, w)
    end.
Proof.
  intros Hfalsy.
  assert (Hor : ∀ other, js_or apiKey other = other).
  { intros other. unfold js_or. by rewrite Hfalsy. }
  unfold new_GatherAPIClient, mbind, M_bind, bind, gets. cbn beta iota.
  rewrite !Hor. unfold env_var at 1 2.
  by destruct (process_env w !! "GATHER_API_KEY") as [[|c key]|].
Qed.

Lemma new_GatherAPIClient_falsy_key_witness :
  new_GatherAPIClient (JStr EmptyString)
    (sample_world ∅ (λ _, Rejected "FetchError" "offline"))
  = (Throw {| name := "Error"; message := "Gather.Town API key is required";
              status := None; data := None |},
     sample_world ∅ (λ _, Rejected "FetchError" "offline")).
Proof.
  rewrite (new_GatherAPIClient_falsy_key (JStr EmptyString)
             (sample_world ∅ (λ _, Rejected "FetchError" "offline")) eq_refl).
  reflexivity.
Defined.

(** *** The configuration is not written to *)

(** C8: whatever method is called, with whatever arguments, in whatever
    state and however the call ends, [this] (the key, the base URL and
    the retry configuration) is afterwards what it was before. *)
Theorem configuration_read_only (op : Operation) (s : Activation) :
  this (call op s).2 = this s.
Proof.
  assert (Hreq : ∀ endpoint options, this (makeRequest endpoint options s).2 = this s).
  { intros endpoint options.
    destruct (makeRequest endpoint options s) as [r s'] eqn:Hrun.
    by apply makeRequest_frame in Hrun as [Hthis _]. }
  destruct op; cbn [call]; try apply Hreq.
  - rewrite addGuest_eq.
    specialize (Hreq (guests_endpoint spaceId) (guests_options guestConfig)).
    by destruct (makeRequest _ _ s) as [[v|error|] s'].
  - done.
Qed.

(** *** The body of [addGuest] *)

(** C10: whatever the guest configuration, [addGuest] sends a POST whose
    body is the serialisation of an object with two fields: [guests], an
    array (the argument itself when it is an array, the one-element array
    of the argument otherwise), and [sendInvitation], which is [true].
    The first effect of the call is a [fetch] with that body, and every
    later [fetch] of the call (the retries) carries the same one. *)
Theorem addGuest_sends_guest_array spaceId guestConfig s :
  0 ≤ maxRetries (retryConfig (this s)) →
  ∃ init effects,
    trace (world (addGuest spaceId guestConfig s).2)
    = trace (world s)
      ++ EvFetch (request_url (this s) (guests_endpoint spaceId)) init :: effects
    ∧ Forall (request_effect (request_url (this s) (guests_endpoint spaceId)) init)
        effects
    ∧ method init = Some "POST"
    ∧ body init
      = JSON_stringify (JObj [("guests", JArr (guest_items guestConfig));
                              ("sendInvitation", JBool true)])
    ∧ (Array_isArray guestConfig = true → JArr (guest_items guestConfig) = guestConfig)
    ∧ (Array_isArray guestConfig = false → guest_items guestConfig = [guestConfig]).
Proof.
  intros Hmax.
  exists (spread (defaultOptions (this s)) (guests_options guestConfig)).
  assert (Hsame : trace (world (addGuest spaceId guestConfig s).2)
                  = trace (world (makeRequest (guests_endpoint spaceId)
                                    (guests_options guestConfig) s).2)).
  { rewrite addGuest_eq. by destruct (makeRequest _ _ s) as [[v|error|] s']. }
  destruct (makeRequest (guests_endpoint spaceId) (guests_options guestConfig) s)
    as [r s'] eqn:Hrun.
  rewrite makeRequest_eq in Hrun.
  apply makeRequest_loop_first_fetch in Hrun as (effects & Htrace & Hall); [|lia].
  exists effects. rewrite Hsame. split; [done|]. split; [done|].
  split; [done|]. split; [|split].
  - by destruct guestConfig.
  - by destruct guestConfig.
  - by destruct guestConfig.
Qed.

Lemma addGuest_sends_guest_array_witness :
  ∃ init effects,
    trace (world (addGuest (JStr "space-1")
                    (JObj [("email", JStr "contact@firstcontact.lgbt")])
                    (sample_state (λ _, respond 200 "OK" (inr (JObj []))))).2)
    = [] ++ EvFetch "https://gather.town/api/v2/spaces/space-1/guests" init :: effects
    ∧ body init
      = JSON_stringify
          (JObj [("guests", JArr [JObj [("email", JStr "contact@firstcontact.lgbt")]]);
                 ("sendInvitation", JBool true)]).
Proof.
  destruct (addGuest_sends_guest_array (JStr "space-1")
              (JObj [("email", JStr "contact@firstcontact.lgbt")])
              (sample_state (λ _, respond 200 "OK" (inr (JObj []))))
              ltac:(cbn; lia))
    as (init & effects & Htrace & _ & _ & Hbody & _).
  exists init, effects. split; [exact Htrace | exact Hbody].
Defined.

End ClientSpec.

(** ** [chunkArray] *)

Module ChunkSpec.
Import FCGuestManager.

Section Chunk.
Context {A : Type}.

Lemma slice_inside (a : list A) (i size : Z) :
  0 ≤ i → 0 < size →
  slice a i (i + size) = take (Z.to_nat size) (drop (Z.to_nat i) a).
Proof.
  intros Hi Hs. unfold slice.
  destruct (Z.ltb_spec i 0); [lia|].
  destruct (Z.ltb_spec (i + size) 0); [lia|].
  destruct (Z_le_gt_dec (i + size) (Z.of_nat (length a))) as [Hle|Hgt].
  - rewrite !Z.min_l by lia. f_equal. lia.
  - rewrite (Z.min_r (i + size)) by lia.
    destruct (Z_le_gt_dec i (Z.of_nat (length a))).
    + rewrite Z.min_l by lia.
      rewrite !take_ge; [done| |]; rewrite length_drop; lia.
    + rewrite Z.min_r by lia.
      rewrite !drop_ge by lia. by rewrite !take_nil.
Qed.

Lemma chunkArray_loop_spec (fuel : nat) :
  ∀ (array : list A) (size i : Z) (chunks : list (list A)),
    0 < size → 0 ≤ i →
    (Z.to_nat (Z.of_nat (length array) - i) < fuel)%nat →
    ∃ rest,
      chunkArray_loop fuel array size i chunks = Some (chunks ++ rest)
      ∧ concat rest = drop (Z.to_nat i) array
      ∧ full_but_last size rest
      ∧ Forall (λ c, c ≠ []) rest.
Proof.
  induction fuel as [|fuel IH]; intros array size i chunks Hs Hi Hf; [lia|].
  simpl. destruct (Z.ltb_spec i (Z.of_nat (length array))) as [Hlt|Hge].
  - destruct (IH array size (i + size)
                (chunks ++ [slice array i (i + size)])) as
      (rest & Hrun & Hcat & Hfull & Hne); [lia..|].
    exists (slice array i (i + size) :: rest).
    rewrite Hrun, <- app_assoc. split; [done|].
    rewrite slice_inside in * by lia.
    assert (Hdrop : drop (Z.to_nat (i + size)) array
                    = drop (Z.to_nat size) (drop (Z.to_nat i) array)).
    { rewrite drop_drop. f_equal. lia. }
    split; [|split].
    + simpl. rewrite Hcat, Hdrop. apply take_drop.
    + intros [|j] c Hc Hj; simpl in *.
      * injection Hc as <-. destruct rest as [|c' rest]; [simpl in Hj; lia|].
        apply Forall_cons in Hne as [Hc' _].
        assert (Hlen : (length (drop (Z.to_nat (i + size)) array) > 0)%nat).
        { rewrite <- Hcat. simpl. rewrite length_app.
          destruct c'; [done|simpl; lia]. }
        rewrite length_drop in Hlen.
        rewrite length_take, length_drop. lia.
      * apply (Hfull j c Hc). lia.
    + constructor; [|done].
      intros Hnil. apply (f_equal length) in Hnil.
      rewrite length_take, length_drop in Hnil. simpl in Hnil. lia.
  - exists []. rewrite app_nil_r. split; [done|].
    split; [|split].
    + simpl. rewrite drop_ge; [done|lia].
    + intros j c Hc. done.
    + constructor.
Qed.

(** With a step that is not positive the loop never leaves a non-empty
    array: whatever the fuel, it is exhausted. *)
Lemma chunkArray_loop_diverges (fuel : nat) :
  ∀ (array : list A) (size i : Z) (chunks : list (list A)),
    size ≤ 0 → i < Z.of_nat (length array) →
    chunkArray_loop fuel array size i chunks = None.
Proof.
  induction fuel as [|fuel IH]; intros array size i chunks Hs Hi; [done|].
  simpl. destruct (Z.ltb_spec i (Z.of_nat (length array))); [|lia].
  apply IH; lia.
Qed.

(** C9: for a positive chunk size, [chunkArray] returns chunks whose
    concatenation in order is the input array, every chunk except
    possibly the last has exactly [size] elements, and no chunk is empty
    when the input is non-empty. *)
Theorem chunkArray_partitions (array : list A) (size : Z) :
  0 < size →
  ∃ chunks,
    chunkArray array size = Some chunks
    ∧ concat chunks = array
    ∧ full_but_last size chunks
    ∧ (array ≠ [] → Forall (λ c, c ≠ []) chunks).
Proof.
  intros Hs.
  destruct (chunkArray_loop_spec (S (length array)) array size 0 [])
    as (rest & Hrun & Hcat & Hfull & Hne); [lia..|].
  exists rest. unfold chunkArray. rewrite Hrun. simpl.
  split; [done|]. split; [by rewrite Hcat|]. split; done.
Qed.

End Chunk.

(** The batches of [bulkInviteGuests] for 23 guests, ten at a time. *)
Lemma chunkArray_partitions_witness :
  0 < 10 ∧
  ∃ chunks,
    chunkArray (seqZ 1 23) 10 = Some chunks
    ∧ concat chunks = seqZ 1 23
    ∧ full_but_last 10 chunks
    ∧ (seqZ 1 23 ≠ [] → Forall (λ c, c ≠ []) chunks).
Proof. split; [lia | apply (chunkArray_partitions (seqZ 1 23) 10); lia]. Defined.

End ChunkSpec.

(** ** [RateLimitManager.checkLimit] *)

Module RateLimitSpec.

(** Cleaning keeps exactly the entries that are not older than the
    window. *)
Lemma clean_old_entries_lookup windowStart (usage : gmap Z bool) timestamp :
  clean_old_entries windowStart usage !! timestamp
  = if timestamp <? windowStart then None else usage !! timestamp.
Proof.
  unfold clean_old_entries.
  assert (Hgen : ∀ entries : list (Z * bool),
    foldr (λ '(t, _) u, if t <? windowStart then delete t u else u) usage entries
      !! timestamp
    = if (timestamp <? windowStart) && bool_decide (timestamp ∈ entries.*1)
      then None else usage !! timestamp).
  { induction entries as [|[t b] entries IH]; cbn.
    - by rewrite andb_false_r.
    - destruct (Z.ltb_spec t windowStart) as [Hold|Hnew].
      + destruct (decide (t = timestamp)) as [->|Hne].
        * rewrite lookup_delete_eq.
          destruct (Z.ltb_spec timestamp windowStart); [|lia].
          rewrite bool_decide_eq_true_2; [done|]. by left.
        * rewrite lookup_delete_ne, IH by done.
          rewrite (bool_decide_ext (timestamp ∈ t :: entries.*1)
                     (timestamp ∈ entries.*1)); [done|].
          rewrite elem_of_cons. split; [by intros [->|?] | by right].
      + rewrite IH. destruct (Z.ltb_spec timestamp windowStart); [|done].
        rewrite (bool_decide_ext (timestamp ∈ t :: entries.*1)
                   (timestamp ∈ entries.*1)); [done|].
        rewrite elem_of_cons. split; [intros [->|?]; [lia|done] | by right]. }
  rewrite Hgen. destruct (timestamp <? windowStart); [|done]. cbn.
  case_bool_decide as Hin; [done|].
  destruct (usage !! timestamp) as [b|] eqn:Ht; [|done].
  exfalso. apply Hin. apply list_elem_of_fmap. exists (timestamp, b).
  split; [done|]. by apply elem_of_map_to_list.
Qed.

Lemma clean_old_entries_subseteq windowStart (usage : gmap Z bool) :
  clean_old_entries windowStart usage ⊆ usage.
Proof.
  apply map_subseteq_spec. intros t b.
  rewrite clean_old_entries_lookup. by destruct (t <? windowStart).
Qed.

(** Nothing is cleaned while every entry is inside the window. *)
Lemma clean_old_entries_id windowStart (usage : gmap Z bool) :
  (∀ t, is_Some (usage !! t) → windowStart ≤ t) →
  clean_old_entries windowStart usage = usage.
Proof.
  intros Hin. apply map_eq. intros t. rewrite clean_old_entries_lookup.
  destruct (Z.ltb_spec t windowStart) as [Hold|]; [|done].
  destruct (usage !! t) eqn:Ht; [|done].
  specialize (Hin t ltac:(by rewrite Ht)). lia.
Qed.

(** The two ways a check on a known tier ends. The old entries are
    cleaned in both; the reading of the clock is recorded only in the
    first. *)
Lemma checkLimit_admits tier now s limit :
  limits s !! default "standard" tier = Some limit →
  Z.of_nat (size (clean_old_entries (now - window limit * 1000) (usage s)))
  < requests limit →
  checkLimit tier now s
  = (Normal true,
     {| limits := limits s;
        usage := <[now := true]>
                   (clean_old_entries (now - window limit * 1000) (usage s)) |}).
Proof.
  intros Htier Hsize.
  unfold checkLimit, mbind, M_bind, bind, gets, modify. cbn.
  rewrite Htier. cbn.
  by destruct (Z.leb_spec (requests limit)
                 (Z.of_nat (size (clean_old_entries (now - window limit * 1000)
                                    (usage s))))); [lia|].
Qed.

Lemma checkLimit_refuses tier now s limit :
  limits s !! default "standard" tier = Some limit →
  requests limit
  ≤ Z.of_nat (size (clean_old_entries (now - window limit * 1000) (usage s))) →
  checkLimit tier now s
  = (Throw (RateLimitError
              ("Rate limit exceeded. Reset in "
               +:+ waitTime_text
                     (Math_min (map_to_list
                                  (clean_old_entries (now - window limit * 1000)
                                     (usage s))).*1)
                     limit now
               +:+ "ms")),
     {| limits := limits s;
        usage := clean_old_entries (now - window limit * 1000) (usage s) |}).
Proof.
  intros Htier Hsize.
  unfold checkLimit, mbind, M_bind, bind, gets, modify. cbn.
  rewrite Htier. cbn.
  by destruct (Z.leb_spec (requests limit)
                 (Z.of_nat (size (clean_old_entries (now - window limit * 1000)
                                    (usage s))))); [|lia].
Qed.

(** The check leaves the quotas alone and never lets the ledger grow
    past the quota of its tier. *)
Lemma checkLimit_keeps_quota tier now s limit :
  limits s !! default "standard" tier = Some limit →
  Z.of_nat (size (usage s)) ≤ requests limit →
  limits (checkLimit tier now s).2 = limits s
  ∧ Z.of_nat (size (usage (checkLimit tier now s).2)) ≤ requests limit.
Proof.
  intros Htier Hsize.
  pose proof (map_subseteq_size _ _
                (clean_old_entries_subseteq (now - window limit * 1000) (usage s)))
    as Hclean.
  destruct (Z_lt_le_dec
              (Z.of_nat (size (clean_old_entries (now - window limit * 1000)
                                 (usage s))))
              (requests limit)) as [Hunder|Hover].
  - rewrite (checkLimit_admits tier now s limit Htier Hunder). cbn.
    split; [done|].
    rewrite map_size_insert.
    destruct (clean_old_entries _ _ !! now); unfold id; lia.
  - rewrite (checkLimit_refuses tier now s limit Htier Hover). cbn.
    split; [done|lia].
Qed.

(** Once more than the window has passed since some recorded entry, a
    ledger that is within its quota admits the next check. *)
Lemma checkLimit_after_window tier now s limit oldest :
  limits s !! default "standard" tier = Some limit →
  Z.of_nat (size (usage s)) ≤ requests limit →
  is_Some (usage s !! oldest) →
  oldest + window limit * 1000 < now →
  (checkLimit tier now s).1 = Normal true.
Proof.
  intros Htier Hsize [b Hold] Hpast.
  rewrite (checkLimit_admits tier now s limit Htier); [done|].
  assert (Hstrict : clean_old_entries (now - window limit * 1000) (usage s)
                    ⊂ usage s).
  { split; [apply clean_old_entries_subseteq|].
    intros Hsub. rewrite map_subseteq_spec in Hsub.
    specialize (Hsub oldest b Hold).
    rewrite clean_old_entries_lookup in Hsub.
    destruct (Z.ltb_spec oldest (now - window limit * 1000)); [done|lia]. }
  apply map_subset_size in Hstrict. lia.
Qed.

Lemma Math_min_least (keys : list Z) :
  keys ≠ [] →
  ∃ least, Math_min keys = Some least ∧ least ∈ keys ∧ ∀ k, k ∈ keys → least ≤ k.
Proof.
  induction keys as [|k keys IH]; [done|]. intros _.
  destruct keys as [|k' keys].
  - exists k. split; [done|]. split; [by left|].
    intros k0 ->%list_elem_of_singleton. lia.
  - destruct IH as (least & Hmin & Hin & Hle); [done|].
    exists (Z.min k least). split; [|split].
    + change (Math_min (k :: k' :: keys))
        with (Some (from_option (Z.min k) k (Math_min (k' :: keys)))).
      by rewrite Hmin.
    + destruct (Z.min_spec k least) as [[_ ->]|[_ ->]]; [by left|by right].
    + intros k0 [->|Hk0]%elem_of_cons; [lia|].
      specialize (Hle k0 Hk0). lia.
Qed.

(** Checks at strictly increasing clock readings, all within one window
    of each other and later than what the ledger holds, are each
    admitted and each recorded while the quota lasts. *)
Lemma checkLimit_each_admits tier limit :
  ∀ clock s,
    limits s !! default "standard" tier = Some limit →
    StronglySorted Z.lt clock →
    (∀ t k, t ∈ clock → is_Some (usage s !! k) →
            t - window limit * 1000 ≤ k ∧ k < t) →
    (∀ t t', t ∈ clock → t' ∈ clock → t' - window limit * 1000 ≤ t) →
    Z.of_nat (size (usage s) + length clock) ≤ requests limit →
    ∃ s',
      checkLimit_each tier clock s = (replicate (length clock) (Normal true), s')
      ∧ limits s' = limits s
      ∧ (∀ k, is_Some (usage s' !! k) ↔ k ∈ clock ∨ is_Some (usage s !! k))
      ∧ size (usage s') = (size (usage s) + length clock)%nat.
Proof.
  induction clock as [|t clock IH]; intros s Htier Hsorted Hold Hnear Hroom.
  { exists s. cbn. split; [done|]. split; [done|]. split; [|lia].
    intros k. split; [by right|]. by intros [?%elem_of_nil|]. }
  apply StronglySorted_cons in Hsorted as [Hlater Hsorted].
  rewrite Forall_forall in Hlater.
  assert (Hid : clean_old_entries (t - window limit * 1000) (usage s) = usage s).
  { apply clean_old_entries_id. intros k Hk.
    by apply (Hold t k); [left|]. }
  assert (Hfresh : usage s !! t = None).
  { destruct (usage s !! t) eqn:Ht; [|done].
    destruct (Hold t t) as [_ ?]; [by left|by rewrite Ht|lia]. }
  cbn [checkLimit_each length]. cbn [length] in Hroom.
  rewrite (checkLimit_admits tier t s limit Htier) by (rewrite Hid; lia).
  rewrite Hid.
  destruct (IH {| limits := limits s; usage := <[t := true]> (usage s) |})
    as (s' & Hrun & Hlimits & Hkeys & Hsize); cbn.
  - done.
  - done.
  - intros t' k Ht' [b Hk].
    destruct (decide (t = k)) as [<-|Hne].
    + split; [apply Hnear; [by left|by right]|by apply Hlater].
    + rewrite lookup_insert_ne in Hk by done.
      apply Hold; [by right|by rewrite Hk].
  - intros t1 t2 Ht1 Ht2. apply Hnear; by right.
  - rewrite map_size_insert_None by done. lia.
  - cbn in Hkeys, Hsize.
    exists s'. rewrite Hrun. cbn. split; [done|]. split; [done|]. split.
    + intros k. rewrite Hkeys, elem_of_cons.
      destruct (decide (t = k)) as [<-|Hne].
      * rewrite lookup_insert_eq. split; [by left; left|by right; eexists].
      * rewrite lookup_insert_ne by done.
        split; [intros [?|?]; [left; by right|by right]|].
        intros [[->|?]|?]; [done|by left|by right].
    + rewrite Hsize, map_size_insert_None by done. lia.
Qed.

(** The quota holds for requests made at distinct clock readings: from
    an empty ledger, checks at strictly increasing readings that fill the
    quota within one window are all admitted, and the next check within
    that window is refused; the error tells the time left until the
    oldest entry, the first reading, leaves the window. *)
Lemma checkLimit_quota_distinct_readings tier limit first clock now s :
  limits s !! default "standard" tier = Some limit →
  usage s = ∅ →
  StronglySorted Z.lt (first :: clock) →
  Z.of_nat (length (first :: clock)) = requests limit →
  (∀ t, t ∈ first :: clock → now - window limit * 1000 ≤ t ∧ t ≤ now) →
  ∃ s',
    checkLimit_each tier (first :: clock) s
    = (replicate (length (first :: clock)) (Normal true), s')
    ∧ checkLimit tier now s'
      = (Throw (RateLimitError
                  ("Rate limit exceeded. Reset in "
                   +:+ pretty (first + window limit * 1000 - now) +:+ "ms")),
         s').
Proof.
  intros Htier Hempty Hsorted Hfull Hwindow.
  destruct (checkLimit_each_admits tier limit (first :: clock) s)
    as (s' & Hrun & Hlimits & Hkeys & Hsize); try done.
  - intros t k _ [b Hk]. by rewrite Hempty, lookup_empty in Hk.
  - intros t t' Ht Ht'.
    destruct (Hwindow t Ht), (Hwindow t' Ht'). lia.
  - rewrite Hempty, map_size_empty. lia.
  - exists s'. split; [done|].
    assert (Hin : ∀ k, is_Some (usage s' !! k) ↔ k ∈ first :: clock).
    { intros k. rewrite Hkeys, Hempty, lookup_empty.
      split; [intros [?|[? ?]]; done|by left]. }
    assert (Hid : clean_old_entries (now - window limit * 1000) (usage s')
                  = usage s').
    { apply clean_old_entries_id. intros k Hk%Hin. by apply Hwindow. }
    rewrite <- Hlimits in Htier.
    rewrite (checkLimit_refuses tier now s' limit Htier); rewrite Hid.
    2:{ rewrite Hsize, Hempty, map_size_empty. lia. }
    destruct (Math_min_least (map_to_list (usage s')).*1)
      as (least & -> & Hleast & Hmin).
    { intros Hnil. apply fmap_nil_inv, map_to_list_empty_iff in Hnil.
      destruct (proj2 (Hin first)) as [b Hb]; [by left|].
      by rewrite Hnil, lookup_empty in Hb. }
    assert (Hkey : ∀ k, k ∈ (map_to_list (usage s')).*1 ↔ k ∈ first :: clock).
    { intros k. rewrite <- Hin, list_elem_of_fmap. split.
      - intros [[k' b] [-> Hb%elem_of_map_to_list]]. by eexists.
      - intros [b Hb]. exists (k, b). by rewrite elem_of_map_to_list. }
    assert (least = first) as ->.
    { apply Hkey in Hleast.
      specialize (Hmin first (proj2 (Hkey first) ltac:(by left))).
      apply StronglySorted_cons in Hsorted as [Hlater _].
      rewrite Forall_forall in Hlater.
      apply elem_of_cons in Hleast as [->|Hleast]; [done|].
      specialize (Hlater least Hleast). lia. }
    cbn. do 2 f_equal. by destruct s'.
Qed.

(** C5, at an input where the code departs from it: a new manager and
    101 checks on the tier [burst] (100 requests per 60 seconds), all
    within the same millisecond. The ledger is a map keyed by the clock
    reading, so the 101 checks leave a single entry: none of them is
    refused, the 101st included. *)
Theorem checkLimit_same_millisecond_not_counted :
  (checkLimit_each (Some "burst") (replicate 101 1700000000000)
     new_RateLimitManager).1
  = replicate 101 (Normal true)
  ∧ size (usage (checkLimit_each (Some "burst") (replicate 101 1700000000000)
                   new_RateLimitManager).2) = 1%nat
  ∧ limits new_RateLimitManager !! "burst" = Some {| requests := 100; window := 60 |}.
Proof. vm_compute. done. Qed.

End RateLimitSpec.

(** ** More on the retry loop *)

Module RetrySpec.
Import ClientSpec.

Lemma after_after_scheduled s url init retries attempt :
  scheduled (after (EvDelay (backoffMs (retryConfig (this s)) * 2 ^ attempt))
               (after (EvFetch url init) s)) url init retries (attempt + 1)
  = scheduled s url init (S retries) attempt.
Proof.
  unfold scheduled, after, record_event. cbn.
  f_equal. f_equal; [lia | by rewrite <- !app_assoc].
Qed.

Lemma after_scheduled s url init attempt :
  after (EvFetch url init) s = scheduled s url init 0 attempt.
Proof.
  unfold scheduled, after, record_event. cbn. f_equal. f_equal. lia.
Qed.

(** Whatever the service answers, the effects of the loop are a backoff
    schedule: a [fetch], then a wait of [backoffMs * 2 ^ k] and a [fetch]
    for each retry, with no more retries than are left. *)
Lemma makeRequest_loop_scheduled fuel url init :
  ∀ attempt s,
    attempt ≤ maxRetries (retryConfig (this s)) →
    (Z.to_nat (maxRetries (retryConfig (this s)) + 1 - attempt) < fuel)%nat →
    ∃ retries : nat,
      attempt + Z.of_nat retries ≤ maxRetries (retryConfig (this s))
      ∧ (makeRequest_loop fuel url init attempt s).2
        = scheduled s url init retries attempt.
Proof.
  induction fuel as [|fuel IH]; intros attempt s Hle Hfuel; [lia|].
  rewrite makeRequest_loop_turn. cbn zeta.
  destruct (Z.leb_spec attempt (maxRetries (retryConfig (this s)))); [|lia].
  destruct (settle _) as [e|v].
  - destruct (Z.eqb_spec attempt (maxRetries (retryConfig (this s)))) as [Hlast|Hmore].
    + exists 0%nat. cbn. split; [lia|]. apply after_scheduled.
    + destruct (retryCondition _ e); cbn.
      * destruct (IH (attempt + 1)
                    (after (EvDelay (backoffMs (retryConfig (this s)) * 2 ^ attempt))
                       (after (EvFetch url init) s)))
          as (retries & Hretries & Hrun); cbn; [lia..|].
        exists (S retries). split; [cbn in Hretries; lia|].
        rewrite Hrun. apply after_after_scheduled.
      * exists 0%nat. cbn. split; [lia|]. apply after_scheduled.
  - exists 0%nat. cbn. split; [lia|]. apply after_scheduled.
Qed.

Lemma total_wait_schedule url init backoff retries :
  ∀ attempt, 0 ≤ attempt →
    total_wait (backoff_schedule url init backoff retries attempt)
    = backoff * (2 ^ (attempt + Z.of_nat retries) - 2 ^ attempt).
Proof.
  induction retries as [|retries IH]; intros attempt Hat.
  - cbn. rewrite Z.add_0_r. lia.
  - cbn [backoff_schedule total_wait foldr]. fold (total_wait
      (backoff_schedule url init backoff retries (attempt + 1))).
    rewrite IH by lia.
    replace (attempt + 1 + Z.of_nat retries) with (attempt + Z.of_nat (S retries)) by lia.
    rewrite (Z.pow_add_r 2 attempt 1) by lia. lia.
Qed.

(** X1: whatever the service answers, a request makes between one and
    [maxRetries + 1] [fetch] calls, all with the same URL and options, and
    its effects are exactly a backoff schedule: after attempt [k] fails
    and before attempt [k + 1], one wait of [backoffMs * 2 ^ k]. The time
    spent waiting is therefore at most [backoffMs * (2 ^ maxRetries - 1)]. *)
Theorem makeRequest_effects_bounded endpoint options s :
  0 ≤ maxRetries (retryConfig (this s)) →
  0 ≤ backoffMs (retryConfig (this s)) →
  ∃ (retries : nat) (effects : list Event),
    Z.of_nat retries ≤ maxRetries (retryConfig (this s))
    ∧ effects = backoff_schedule (request_url (this s) endpoint)
                  (spread (defaultOptions (this s)) options)
                  (backoffMs (retryConfig (this s))) retries 0
    ∧ trace (world (makeRequest endpoint options s).2) = trace (world s) ++ effects
    ∧ fetch_count effects = S retries
    ∧ 0 ≤ total_wait effects
      ≤ backoffMs (retryConfig (this s))
        * (2 ^ maxRetries (retryConfig (this s)) - 1).
Proof.
  intros Hmax Hback. rewrite makeRequest_eq.
  destruct (makeRequest_loop_scheduled
              (S (Z.to_nat (maxRetries (retryConfig (this s)) + 1)))
              (request_url (this s) endpoint)
              (spread (defaultOptions (this s)) options) 0 s)
    as (retries & Hretries & Hrun); [lia..|].
  exists retries. eexists. split; [lia|]. split; [reflexivity|].
  rewrite Hrun. split; [done|]. split; [apply backoff_schedule_fetches|].
  rewrite total_wait_schedule by lia. cbn [Z.pow Z.add].
  assert (1 ≤ 2 ^ Z.of_nat retries) by (apply Z.pow_le_mono_r with (b := 0); lia).
  assert (2 ^ Z.of_nat retries ≤ 2 ^ maxRetries (retryConfig (this s)))
    by (apply Z.pow_le_mono_r; lia).
  rewrite Z.add_0_l. change (2 ^ 0) with 1. nia.
Qed.

Lemma makeRequest_effects_bounded_witness :
  ∃ (retries : nat) (effects : list Event),
    Z.of_nat retries ≤ 3
    ∧ trace (world (makeRequest "/spaces" no_options
                      (sample_state (λ _, respond 503 "Service Unavailable"
                                            (inr (JObj []))))).2)
      = [] ++ effects
    ∧ fetch_count effects = S retries
    ∧ 0 ≤ total_wait effects ≤ 1000 * (2 ^ 3 - 1).
Proof.
  destruct (makeRequest_effects_bounded "/spaces" no_options
              (sample_state (λ _, respond 503 "Service Unavailable" (inr (JObj []))))
              ltac:(cbn; lia) ltac:(cbn; lia))
    as (retries & effects & Hle & _ & Htrace & Hcount & Hwait).
  exists retries, effects. repeat split; assumption || apply Hwait.
Defined.

(** What the constructor guarantees of the client it returns. *)
Lemma new_GatherAPIClient_returns key w c w' :
  new_GatherAPIClient key w = (Normal c, w') →
  w' = w
  ∧ truthy (apiKey c) = true
  ∧ retryConfig c = {| maxRetries := 3; backoffMs := 1000;
                       retryCondition := default_retryCondition |}.
Proof.
  unfold new_GatherAPIClient, mbind, M_bind, bind, gets. cbn beta iota.
  destruct (truthy (js_or key _)) eqn:Hkey; cbn; [|done].
  by intros [= <- <-].
Qed.

(** X2: a client that the constructor returned holds a non-empty key and
    the default retry policy, and so each of its requests, whatever the
    service answers, makes at least one and at most four [fetch] calls and
    waits at most 7000 ms in all. *)
Theorem constructed_client_request_bounded key w0 w1 c endpoint options w :
  new_GatherAPIClient key w0 = (Normal c, w1) →
  truthy (apiKey c) = true
  ∧ ∃ effects,
      trace (world (makeRequest endpoint options {| this := c; world := w |}).2)
      = trace w ++ effects
      ∧ (1 ≤ fetch_count effects ≤ 4)%nat
      ∧ 0 ≤ total_wait effects ≤ 7000.
Proof.
  intros (_ & Hkey & Hconfig)%new_GatherAPIClient_returns. split; [done|].
  rewrite makeRequest_eq. cbn [this world].
  destruct (makeRequest_loop_scheduled
              (S (Z.to_nat (maxRetries (retryConfig c) + 1)))
              (request_url c endpoint) (spread (defaultOptions c) options) 0
              {| this := c; world := w |})
    as (retries & Hretries & Hrun); cbn; rewrite ?Hconfig; cbn; [lia..|].
  cbn in Hretries. rewrite Hconfig in Hretries, Hrun. cbn in Hretries, Hrun.
  rewrite Hrun. cbn. eexists. split; [reflexivity|].
  rewrite backoff_schedule_fetches, total_wait_schedule by lia.
  rewrite Hconfig. cbn [backoffMs Z.add].
  assert (1 ≤ 2 ^ Z.of_nat retries) by (apply Z.pow_le_mono_r with (b := 0); lia).
  assert (2 ^ Z.of_nat retries ≤ 2 ^ 3) by (apply Z.pow_le_mono_r; lia).
  rewrite Z.add_0_l. change (2 ^ 0) with 1. change (2 ^ 3) with 8 in *.
  split; [lia|]. lia.
Qed.

Lemma constructed_client_request_bounded_witness :
  ∃ effects,
    trace (world (makeRequest "/spaces" no_options
                    {| this := sample_client;
                       world := sample_world ∅ (λ _, Rejected "FetchError" "offline") |}).2)
    = [] ++ effects
    ∧ (1 ≤ fetch_count effects ≤ 4)%nat.
Proof.
  assert (Hnew : new_GatherAPIClient (JStr "k")
                   (sample_world ∅ (λ _, Rejected "FetchError" "offline"))
                 = (Normal sample_client,
                    sample_world ∅ (λ _, Rejected "FetchError" "offline")))
    by (vm_compute; reflexivity).
  destruct (constructed_client_request_bounded _ _ _ _ "/spaces" no_options
              (sample_world ∅ (λ _, Rejected "FetchError" "offline")) Hnew)
    as (_ & effects & Htrace & Hcount & _).
  exists effects. split; [exact Htrace | exact Hcount].
Defined.

(** The request is decided by the first answer that is not retried, or
    by the answer to the last attempt: after [k] retried answers, with
    attempt [k] either not retried or the last one, the request ends as
    the [try] block of attempt [k] does. *)
Lemma makeRequest_loop_decided url init (k : nat) :
  ∀ attempt s fuel,
    retryCondition (retryConfig (this s)) = default_retryCondition →
    attempt + Z.of_nat k ≤ maxRetries (retryConfig (this s)) →
    (∀ j, (j < k)%nat → retried (answer s url init j)) →
    match settle (answer s url init k) with
    | inr _ => True
    | inl error =>
        default_retryCondition error = false
        ∨ attempt + Z.of_nat k = maxRetries (retryConfig (this s))
    end →
    (k < fuel)%nat →
    makeRequest_loop fuel url init attempt s
    = (completion_of (settle (answer s url init k)),
       scheduled s url init k attempt).
Proof.
  induction k as [|k IH]; intros attempt s fuel Hcond Hmax Hretried Hlast Hfuel;
    (destruct fuel as [|fuel]; [lia|]);
    rewrite makeRequest_loop_turn; cbn zeta;
    (destruct (Z.leb_spec attempt (maxRetries (retryConfig (this s)))); [|lia]).
  - unfold answer in Hlast |- *. rewrite Nat.add_0_r in *.
    unfold next_outcome.
    destruct (settle _) as [e|v]; cbn; [|by rewrite <- after_scheduled].
    rewrite Hcond.
    destruct (Z.eqb_spec attempt (maxRetries (retryConfig (this s)))) as [|Hne];
      cbn; [by rewrite <- after_scheduled|].
    destruct Hlast as [->|]; [|lia]. cbn. by rewrite <- after_scheduled.
  - destruct (Hretried 0%nat ltac:(lia)) as (e & He & Hretry).
    unfold answer in He. rewrite Nat.add_0_r in He.
    unfold next_outcome. rewrite He, Hcond, Hretry.
    destruct (Z.eqb_spec attempt (maxRetries (retryConfig (this s)))); [lia|].
    cbn [orb negb].
    rewrite (IH (attempt + 1)); cbn [this world after record_event served].
    + unfold answer. cbn [world after record_event served network].
      replace (S (served (world s)) + k)%nat with (served (world s) + S k)%nat by lia.
      by rewrite after_after_scheduled.
    + done.
    + lia.
    + intros j Hj. specialize (Hretried (S j) ltac:(lia)).
      unfold answer in *. cbn [world after record_event served network].
      by replace (S (served (world s)) + j)%nat
        with (served (world s) + S j)%nat by lia.
    + unfold answer in *. cbn [world after record_event served network].
      replace (S (served (world s)) + k)%nat with (served (world s) + S k)%nat by lia.
      destruct (settle _); [|done]. destruct Hlast; [by left|right; lia].
    + lia.
Qed.

Lemma makeRequest_decided endpoint options s (k : nat) :
  retryCondition (retryConfig (this s)) = default_retryCondition →
  Z.of_nat k ≤ maxRetries (retryConfig (this s)) →
  (∀ j, (j < k)%nat →
        retried (answer s (request_url (this s) endpoint)
                   (spread (defaultOptions (this s)) options) j)) →
  match settle (answer s (request_url (this s) endpoint)
                  (spread (defaultOptions (this s)) options) k) with
  | inr _ => True
  | inl error =>
      default_retryCondition error = false
      ∨ Z.of_nat k = maxRetries (retryConfig (this s))
  end →
  makeRequest endpoint options s
  = (completion_of (settle (answer s (request_url (this s) endpoint)
                              (spread (defaultOptions (this s)) options) k)),
     scheduled s (request_url (this s) endpoint)
       (spread (defaultOptions (this s)) options) k 0).
Proof.
  intros Hcond Hmax Hretried Hlast. rewrite makeRequest_eq.
  apply makeRequest_loop_decided; try done; lia.
Qed.

(** An error response with a status the condition names and a body that
    decodes as JSON is retried. *)
Lemma retried_response r v :
  500 ≤ Response.status r ∨ Response.status r = 429 →
  Response.json r = inr v → readable v →
  retried (Responded r).
Proof.
  intros Hst Hjson Hread. exists (api_error r v). split.
  - apply settle_error_response; [apply not_ok_status; lia|done..].
  - unfold default_retryCondition, api_error. cbn.
    destruct Hst as [Hst| ->]; [|done].
    destruct (Z.leb_spec 500 (Response.status r)); [done|lia].
Qed.

(** X3: recovery. When the first [k] answers ([k] at most [maxRetries])
    are error responses with status 429 or 500 and above and a JSON body,
    and the next answer is a 2xx response with a JSON body, the request
    returns that body after exactly [k] retries, having waited
    [backoffMs * 2 ^ j] after each failed attempt [j]. *)
Theorem makeRequest_recovers endpoint options s (k : nat) r v :
  retryCondition (retryConfig (this s)) = default_retryCondition →
  Z.of_nat k ≤ maxRetries (retryConfig (this s)) →
  (∀ j, (j < k)%nat →
        ∃ rj vj,
          answer s (request_url (this s) endpoint)
            (spread (defaultOptions (this s)) options) j = Responded rj
          ∧ (500 ≤ Response.status rj ∨ Response.status rj = 429)
          ∧ Response.json rj = inr vj ∧ readable vj) →
  answer s (request_url (this s) endpoint)
    (spread (defaultOptions (this s)) options) k = Responded r →
  Response.ok r = true →
  Response.json r = inr v →
  makeRequest endpoint options s
  = (Normal v,
     scheduled s (request_url (this s) endpoint)
       (spread (defaultOptions (this s)) options) k 0).
Proof.
  intros Hcond Hmax Hfirst Hk Hok Hjson.
  rewrite (makeRequest_decided endpoint options s k Hcond Hmax).
  - rewrite Hk. unfold settle. by rewrite Hjson, Hok.
  - intros j Hj. destruct (Hfirst j Hj) as (rj & vj & -> & Hst & Hjs & Hread).
    by apply (retried_response rj vj).
  - rewrite Hk. unfold settle. by rewrite Hjson, Hok.
Qed.

Lemma makeRequest_recovers_witness :
  makeRequest "/spaces" no_options
    (sample_state (λ n, if decide (n < 2)%nat
                        then respond 503 "Service Unavailable" (inr (JObj []))
                        else respond 200 "OK" (inr (JStr "done"))))
  = (Normal (JStr "done"),
     scheduled
       (sample_state (λ n, if decide (n < 2)%nat
                           then respond 503 "Service Unavailable" (inr (JObj []))
                           else respond 200 "OK" (inr (JStr "done"))))
       "https://gather.town/api/v2/spaces" (defaultOptions sample_client) 2 0).
Proof.
  apply (makeRequest_recovers "/spaces" no_options
           (sample_state (λ n, if decide (n < 2)%nat
                               then respond 503 "Service Unavailable" (inr (JObj []))
                               else respond 200 "OK" (inr (JStr "done"))))
           2
           {| Response.status := 200; Response.statusText := "OK";
              Response.json := inr (JStr "done") |});
    [reflexivity | cbn; lia | | reflexivity | reflexivity | reflexivity].
  intros j Hj.
  exists {| Response.status := 503; Response.statusText := "Service Unavailable";
            Response.json := inr (JObj []) |}, (JObj []).
  unfold answer. cbn. rewrite decide_True by lia.
  repeat split; try done. left. cbn. lia.
Defined.

(** X4: exhaustion. When every one of the first [maxRetries + 1] answers
    is an error response with status 429 or 500 and above and a JSON
    body, the request makes exactly [maxRetries + 1] attempts, with the
    wait [backoffMs * 2 ^ j] after attempt [j], and throws the [APIError]
    of the last answer: its status, and as message the [message] of the
    body when that is truthy, the status text otherwise. *)
Theorem makeRequest_exhausts_retries endpoint options s (n : nat) :
  retryCondition (retryConfig (this s)) = default_retryCondition →
  Z.of_nat n = maxRetries (retryConfig (this s)) →
  (∀ j, (j ≤ n)%nat →
        ∃ rj vj,
          answer s (request_url (this s) endpoint)
            (spread (defaultOptions (this s)) options) j = Responded rj
          ∧ (500 ≤ Response.status rj ∨ Response.status rj = 429)
          ∧ Response.json rj = inr vj ∧ readable vj) →
  ∃ r v,
    answer s (request_url (this s) endpoint)
      (spread (defaultOptions (this s)) options) n = Responded r
    ∧ Response.json r = inr v
    ∧ makeRequest endpoint options s
      = (Throw {| name := "APIError";
                  message := ToString
                               (js_or (match v with
                                       | JObj props => assoc "message" props
                                       | _ => JUndefined
                                       end)
                                      (JStr (Response.statusText r)));
                  status := Some (Response.status r);
                  data := None |},
         scheduled s (request_url (this s) endpoint)
           (spread (defaultOptions (this s)) options) n 0).
Proof.
  intros Hcond Hmax Hall.
  destruct (Hall n ltac:(lia)) as (r & v & Hr & Hst & Hjson & Hread).
  exists r, v. split; [done|]. split; [done|].
  rewrite (makeRequest_decided endpoint options s n Hcond ltac:(lia)).
  - rewrite Hr, (settle_error_response r v); [done|apply not_ok_status; lia|done..].
  - intros j Hj. destruct (Hall j ltac:(lia)) as (rj & vj & -> & Hstj & Hjs & Hrd).
    by apply (retried_response rj vj).
  - rewrite Hr, (settle_error_response r v); [by right|apply not_ok_status; lia|done..].
Qed.

Lemma makeRequest_exhausts_retries_witness :
  ∃ r v,
    answer (sample_state (λ _, respond 429 "Too Many Requests"
                                 (inr (JObj [("message", JStr "slow down")]))))
      "https://gather.town/api/v2/spaces" (defaultOptions sample_client) 3
    = Responded r
    ∧ Response.json r = inr v
    ∧ makeRequest "/spaces" no_options
        (sample_state (λ _, respond 429 "Too Many Requests"
                              (inr (JObj [("message", JStr "slow down")]))))
      = (Throw {| name := "APIError";
                  message := ToString
                               (js_or (match v with
                                       | JObj props => assoc "message" props
                                       | _ => JUndefined
                                       end)
                                      (JStr (Response.statusText r)));
                  status := Some (Response.status r);
                  data := None |},
         scheduled
           (sample_state (λ _, respond 429 "Too Many Requests"
                                 (inr (JObj [("message", JStr "slow down")]))))
           "https://gather.town/api/v2/spaces" (defaultOptions sample_client) 3 0).
Proof.
  apply (makeRequest_exhausts_retries "/spaces" no_options
           (sample_state (λ _, respond 429 "Too Many Requests"
                                 (inr (JObj [("message", JStr "slow down")])))) 3);
    [reflexivity | reflexivity |].
  intros j Hj.
  exists {| Response.status := 429; Response.statusText := "Too Many Requests";
            Response.json := inr (JObj [("message", JStr "slow down")]) |},
    (JObj [("message", JStr "slow down")]).
  repeat split; try done. by right.
Defined.

(** X5: a status the condition does not name is not retried. After [k]
    retried answers, an error response with a status below 500 other
    than 429 and a JSON body ends the request on that attempt, even when
    attempts remain: the [APIError] thrown carries that status, and no
    wait and no [fetch] follow. *)
Theorem makeRequest_other_status_not_retried endpoint options s (k : nat) r v :
  retryCondition (retryConfig (this s)) = default_retryCondition →
  Z.of_nat k ≤ maxRetries (retryConfig (this s)) →
  (∀ j, (j < k)%nat →
        retried (answer s (request_url (this s) endpoint)
                   (spread (defaultOptions (this s)) options) j)) →
  answer s (request_url (this s) endpoint)
    (spread (defaultOptions (this s)) options) k = Responded r →
  Response.ok r = false →
  Response.status r < 500 → Response.status r ≠ 429 →
  Response.json r = inr v → readable v →
  ∃ e,
    makeRequest endpoint options s
    = (Throw e,
       scheduled s (request_url (this s) endpoint)
         (spread (defaultOptions (this s)) options) k 0)
    ∧ name e = "APIError"
    ∧ status e = Some (Response.status r).
Proof.
  intros Hcond Hmax Hretried Hk Hok Hlow Hne Hjson Hread.
  exists (api_error r v).
  rewrite (makeRequest_decided endpoint options s k Hcond Hmax Hretried);
    rewrite Hk, (settle_error_response r v Hok Hjson Hread); [done|].
  left. unfold default_retryCondition, api_error. cbn.
  destruct (Z.leb_spec 500 (Response.status r)); [lia|].
  destruct (Z.eqb_spec (Response.status r) 429); done.
Qed.

Lemma makeRequest_other_status_not_retried_witness :
  ∃ e,
    makeRequest "/spaces/nowhere" no_options
      (sample_state (λ _, respond 404 "Not Found" (inr (JObj []))))
    = (Throw e,
       scheduled (sample_state (λ _, respond 404 "Not Found" (inr (JObj []))))
         "https://gather.town/api/v2/spaces/nowhere" (defaultOptions sample_client) 0 0)
    ∧ name e = "APIError"
    ∧ status e = Some 404.
Proof.
  apply (makeRequest_other_status_not_retried "/spaces/nowhere" no_options
           (sample_state (λ _, respond 404 "Not Found" (inr (JObj [])))) 0
           {| Response.status := 404; Response.statusText := "Not Found";
              Response.json := inr (JObj []) |} (JObj []));
    [reflexivity | cbn; lia | intros j Hj; lia | reflexivity | reflexivity
    | cbn; lia | cbn; lia | reflexivity | done].
Defined.

(** X6: a body that cannot be read ends the request whatever the status.
    After [k] retried answers, a response whose body does not decode as
    JSON (status 2xx included, as for an empty 204 answer), or an error
    response whose body decodes to [null], makes the request throw on that
    attempt an error that is not an [APIError] and has no [status]. *)
Theorem makeRequest_unreadable_body_fails endpoint options s (k : nat) r :
  retryCondition (retryConfig (this s)) = default_retryCondition →
  Z.of_nat k ≤ maxRetries (retryConfig (this s)) →
  (∀ j, (j < k)%nat →
        retried (answer s (request_url (this s) endpoint)
                   (spread (defaultOptions (this s)) options) j)) →
  answer s (request_url (this s) endpoint)
    (spread (defaultOptions (this s)) options) k = Responded r →
  (∃ reason, Response.json r = inl reason)
  ∨ (Response.ok r = false ∧ Response.json r = inr JNull) →
  ∃ e,
    makeRequest endpoint options s
    = (Throw e,
       scheduled s (request_url (this s) endpoint)
         (spread (defaultOptions (this s)) options) k 0)
    ∧ name e ≠ "APIError"
    ∧ status e = None.
Proof.
  intros Hcond Hmax Hretried Hk Hbody.
  assert (∃ e, settle (Responded r) = inl e ∧ name e ≠ "APIError" ∧ status e = None)
    as (e & He & Hname & Hstatus).
  { unfold settle. destruct Hbody as [[reason ->]|[-> ->]]; by eexists. }
  exists e.
  rewrite (makeRequest_decided endpoint options s k Hcond Hmax Hretried);
    rewrite Hk, He; [done|].
  left. by apply default_retryCondition_no_status.
Qed.

Lemma makeRequest_unreadable_body_fails_witness :
  ∃ e,
    makeRequest "/spaces/s1/guests/g1"
      {| method := Some "DELETE"; headers := None; body := None |}
      (sample_state (λ _, respond 204 "No Content" (inl "Unexpected end of JSON input")))
    = (Throw e,
       scheduled
         (sample_state (λ _, respond 204 "No Content" (inl "Unexpected end of JSON input")))
         "https://gather.town/api/v2/spaces/s1/guests/g1"
         (spread (defaultOptions sample_client)
            {| method := Some "DELETE"; headers := None; body := None |}) 0 0)
    ∧ name e ≠ "APIError"
    ∧ status e = None.
Proof.
  apply (makeRequest_unreadable_body_fails "/spaces/s1/guests/g1"
           {| method := Some "DELETE"; headers := None; body := None |}
           (sample_state (λ _, respond 204 "No Content"
                                 (inl "Unexpected end of JSON input"))) 0
           {| Response.status := 204; Response.statusText := "No Content";
              Response.json := inl "Unexpected end of JSON input" |});
    [reflexivity | cbn; lia | intros j Hj; lia | reflexivity | left; by eexists].
Defined.

End RetrySpec.

(** ** The wrappers *)

Module WrapperSpec.
Import ClientSpec.

(** X7: [addGuest] renames two more statuses. When the first answer to
    its request is an error response with status 403, respectively 409,
    and a JSON body, it throws a [PermissionError], respectively a
    [ConflictError], after that single [fetch]; the message is the fixed
    text of [addGuest], whatever message the service sent. *)
Theorem addGuest_403_409 spaceId guestConfig s r v :
  retryCondition (retryConfig (this s)) = default_retryCondition →
  0 ≤ maxRetries (retryConfig (this s)) →
  next_outcome s (request_url (this s) (guests_endpoint spaceId))
    (spread (defaultOptions (this s)) (guests_options guestConfig)) = Responded r →
  Response.status r = 403 ∨ Response.status r = 409 →
  Response.json r = inr v → readable v →
  addGuest spaceId guestConfig s
  = (Throw (if decide (Response.status r = 403)
            then {| name := "PermissionError";
                    message := "Insufficient permissions to add guests";
                    status := Some 403; data := None |}
            else {| name := "ConflictError";
                    message := "Guest already exists in space";
                    status := Some 409; data := None |}),
     after (EvFetch (request_url (this s) (guests_endpoint spaceId))
              (spread (defaultOptions (this s)) (guests_options guestConfig))) s).
Proof.
  intros Hcond Hmax Hnet Hst Hjson Hread.
  assert (Hok : Response.ok r = false) by (apply not_ok_status; lia).
  rewrite addGuest_eq, makeRequest_eq, makeRequest_loop_turn. cbn zeta.
  destruct (Z.leb_spec 0 (maxRetries (retryConfig (this s)))); [|lia].
  rewrite Hnet, (settle_error_response r v Hok Hjson Hread), Hcond.
  unfold default_retryCondition at 1, api_error at 1. cbn [status APIError].
  destruct Hst as [Hst|Hst]; rewrite Hst; cbn; rewrite orb_true_r;
    unfold api_error; cbn [status APIError]; rewrite Hst; by case_decide.
Qed.

Lemma addGuest_403_409_witness :
  addGuest (JStr "space-1") (JObj [("email", JStr "a@b.c")])
    (sample_state (λ _, respond 409 "Conflict"
                          (inr (JObj [("message", JStr "duplicate guest a@b.c")]))))
  = (Throw {| name := "ConflictError";
              message := "Guest already exists in space";
              status := Some 409; data := None |},
     after (EvFetch "https://gather.town/api/v2/spaces/space-1/guests"
              (spread (defaultOptions sample_client)
                 (guests_options (JObj [("email", JStr "a@b.c")]))))
       (sample_state (λ _, respond 409 "Conflict"
                             (inr (JObj [("message", JStr "duplicate guest a@b.c")]))))).
Proof.
  apply (addGuest_403_409 (JStr "space-1") (JObj [("email", JStr "a@b.c")])
           (sample_state (λ _, respond 409 "Conflict"
                                 (inr (JObj [("message", JStr "duplicate guest a@b.c")]))))
           {| Response.status := 409; Response.statusText := "Conflict";
              Response.json := inr (JObj [("message", JStr "duplicate guest a@b.c")]) |}
           (JObj [("message", JStr "duplicate guest a@b.c")]));
    [reflexivity | cbn; lia | reflexivity | by right | reflexivity | done].
Defined.

Lemma request_effect_sent_with url init (P : string → RequestInit → Prop) effects :
  P url init →
  Forall (request_effect url init) effects →
  Forall (sent_with P) effects.
Proof.
  intros HP Hall. eapply Forall_impl; [exact Hall|].
  intros e [->|[ms ->]]; done.
Qed.

(** X8: every convenience method authenticates. Each [fetch] made by
    [createSpace], [getSpace], [updateSpace], [addGuest], [getGuestList],
    [updateGuest], [removeGuest], [sendInvitation] or [createWebhook],
    first attempt or retry, goes to a URL that starts with the base URL
    and carries exactly the three default headers, the bearer token built
    from the key of the client among them. *)
Theorem wrappers_send_default_headers (op : Operation) (s : Activation) :
  (∀ endpoint options, op ≠ Call_makeRequest endpoint options) →
  ∃ effects,
    trace (world (call op s).2) = trace (world s) ++ effects
    ∧ Forall (sent_with (λ url init,
                (∃ endpoint, url = ToString (baseUrl (this s)) +:+ endpoint)
                ∧ headers init
                  = Some [("Authorization",
                           "Bearer " +:+ ToString (apiKey (this s)));
                          ("Content-Type", "application/json");
                          ("User-Agent", "FC-GuestList-POC/1.0")]))
        effects.
Proof.
  intros Hop.
  assert (Hreq : ∀ endpoint method body,
    ∃ effects,
      trace (world (makeRequest endpoint
                      {| method := method; headers := None; body := body |} s).2)
      = trace (world s) ++ effects
      ∧ Forall (sent_with (λ url init,
                  (∃ endpoint, url = ToString (baseUrl (this s)) +:+ endpoint)
                  ∧ headers init
                    = Some [("Authorization",
                             "Bearer " +:+ ToString (apiKey (this s)));
                            ("Content-Type", "application/json");
                            ("User-Agent", "FC-GuestList-POC/1.0")]))
          effects).
  { intros endpoint method body.
    destruct (makeRequest endpoint _ s) as [r s'] eqn:Hrun.
    apply makeRequest_frame in Hrun as (_ & effects & Htrace & Hall).
    exists effects. split; [done|].
    eapply request_effect_sent_with; [|exact Hall].
    split; [by exists endpoint|done]. }
  destruct op; cbn [call];
    try (by apply Hreq); try (by destruct (Hop endpoint options)).
  - rewrite addGuest_eq.
    destruct (Hreq (guests_endpoint spaceId) (Some "POST")
                (JSON_stringify (addGuest_payload guestConfig)))
      as (effects & Htrace & Hall).
    exists effects. split; [|done]. rewrite <- Htrace.
    unfold guests_options.
    by destruct (makeRequest _ _ s) as [[?|?|] ?].
  - exists [EvDelay ms]. split; [done|]. by constructor.
Qed.

Lemma wrappers_send_default_headers_witness :
  ∃ effects,
    trace (world (call (Call_removeGuest (JStr "s1") (JNum 7))
                    (sample_state (λ _, respond 200 "OK" (inr (JObj []))))).2)
    = [] ++ effects
    ∧ Forall (sent_with (λ url init,
                (∃ endpoint, url = "https://gather.town/api/v2" +:+ endpoint)
                ∧ headers init
                  = Some [("Authorization", "Bearer k");
                          ("Content-Type", "application/json");
                          ("User-Agent", "FC-GuestList-POC/1.0")]))
        effects.
Proof.
  apply (wrappers_send_default_headers (Call_removeGuest (JStr "s1") (JNum 7))
           (sample_state (λ _, respond 200 "OK" (inr (JObj []))))).
  discriminate.
Defined.

(** X9: headers given to [makeRequest] replace the default ones as a
    whole. With [options.headers] present, every [fetch] of the request
    carries exactly those headers: the defaults, the [Authorization]
    header among them, are not merged in. *)
Theorem makeRequest_headers_replace_defaults endpoint options custom s :
  headers options = Some custom →
  ∃ effects,
    trace (world (makeRequest endpoint options s).2) = trace (world s) ++ effects
    ∧ Forall (sent_with (λ _ init, headers init = Some custom)) effects.
Proof.
  intros Hcustom.
  destruct (makeRequest endpoint options s) as [r s'] eqn:Hrun.
  apply makeRequest_frame in Hrun as (_ & effects & Htrace & Hall).
  exists effects. split; [done|].
  eapply request_effect_sent_with; [|exact Hall].
  cbn. by rewrite Hcustom.
Qed.

Lemma makeRequest_headers_replace_defaults_witness :
  ∃ effects,
    trace (world (makeRequest "/spaces"
                    {| method := None; headers := Some [("Accept", "text/plain")];
                       body := None |}
                    (sample_state (λ _, respond 200 "OK" (inr (JObj []))))).2)
    = [] ++ effects
    ∧ Forall (sent_with (λ _ init, headers init = Some [("Accept", "text/plain")]))
        effects.
Proof.
  apply (makeRequest_headers_replace_defaults "/spaces"
           {| method := None; headers := Some [("Accept", "text/plain")]; body := None |}
           [("Accept", "text/plain")]
           (sample_state (λ _, respond 200 "OK" (inr (JObj []))))).
  reflexivity.
Defined.

End WrapperSpec.

(** ** More on the rate ledger *)

Module LedgerSpec.
Import RateLimitSpec.

(** X10: the ledger never outgrows the quota. Starting within the quota
    of a tier (as a new manager does), any sequence of checks on that
    tier, at any clock readings and however each of them ends, leaves the
    quotas as they were and at most [requests] entries in the ledger. *)
Theorem checkLimit_each_keeps_quota tier limit (clock : list Z) :
  ∀ s,
    limits s !! default "standard" tier = Some limit →
    Z.of_nat (size (usage s)) ≤ requests limit →
    limits (checkLimit_each tier clock s).2 = limits s
    ∧ Z.of_nat (size (usage (checkLimit_each tier clock s).2)) ≤ requests limit.
Proof.
  induction clock as [|now clock IH]; intros s Htier Hsize; [done|].
  cbn [checkLimit_each].
  destruct (checkLimit_keeps_quota tier now s limit Htier Hsize) as [Hlimits Hquota].
  destruct (checkLimit tier now s) as [r s'] eqn:Hcheck. cbn in Hlimits, Hquota.
  destruct (IH s') as [Hlimits' Hquota']; [by rewrite Hlimits|done|].
  destruct (checkLimit_each tier clock s') as [rs s''] eqn:Hrest.
  cbn in *. split; [congruence|done].
Qed.

Lemma checkLimit_each_keeps_quota_witness :
  limits (checkLimit_each (Some "burst") [5; 5; 70000; 3] new_RateLimitManager).2
  = limits new_RateLimitManager
  ∧ Z.of_nat (size (usage (checkLimit_each (Some "burst") [5; 5; 70000; 3]
                              new_RateLimitManager).2)) ≤ 100.
Proof.
  apply (checkLimit_each_keeps_quota (Some "burst")
           {| requests := 100; window := 60 |} [5; 5; 70000; 3] new_RateLimitManager);
    [reflexivity | vm_compute; discriminate].
Defined.

(** X11: the quota at distinct clock readings. From an empty ledger,
    checks at strictly increasing readings that fill the quota within one
    window are all admitted, and the next check within that window is
    refused with a [RateLimitError] whose message tells the time left
    until the first reading leaves the window. *)
Theorem checkLimit_quota_enforced tier limit first clock now s :
  limits s !! default "standard" tier = Some limit →
  usage s = ∅ →
  StronglySorted Z.lt (first :: clock) →
  Z.of_nat (length (first :: clock)) = requests limit →
  (∀ t, t ∈ first :: clock → now - window limit * 1000 ≤ t ∧ t ≤ now) →
  ∃ s',
    checkLimit_each tier (first :: clock) s
    = (replicate (length (first :: clock)) (Normal true), s')
    ∧ checkLimit tier now s'
      = (Throw {| name := "RateLimitError";
                  message := "Rate limit exceeded. Reset in "
                             +:+ pretty (first + window limit * 1000 - now) +:+ "ms";
                  status := None; data := None |},
         s').
Proof. apply checkLimit_quota_distinct_readings. Qed.

Lemma checkLimit_quota_enforced_witness :
  ∃ s',
    checkLimit_each (Some "tiny") [0; 500] two_per_second
    = ([Normal true; Normal true], s')
    ∧ checkLimit (Some "tiny") 900 s'
      = (Throw {| name := "RateLimitError";
                  message := "Rate limit exceeded. Reset in "
                             +:+ pretty (0 + 1 * 1000 - 900) +:+ "ms";
                  status := None; data := None |},
         s').
Proof.
  apply (checkLimit_quota_enforced (Some "tiny") {| requests := 2; window := 1 |}
           0 [500] 900 two_per_second);
    [reflexivity | reflexivity | | reflexivity |].
  - repeat constructor.
  - intros t Ht. cbn [window].
    apply elem_of_cons in Ht as [->|Ht]; [lia|].
    apply list_elem_of_singleton in Ht as ->. lia.
Defined.

(** X12: the window slides. Once more than the window has passed since
    some recorded entry, a ledger that is within the quota of the tier
    admits the next check on it. *)
Theorem checkLimit_admits_after_window tier now s limit oldest :
  limits s !! default "standard" tier = Some limit →
  Z.of_nat (size (usage s)) ≤ requests limit →
  is_Some (usage s !! oldest) →
  oldest + window limit * 1000 < now →
  (checkLimit tier now s).1 = Normal true.
Proof. apply checkLimit_after_window. Qed.

Lemma checkLimit_admits_after_window_witness :
  (checkLimit (Some "tiny") 1001
     (checkLimit_each (Some "tiny") [0; 500] two_per_second).2).1
  = Normal true.
Proof.
  apply (checkLimit_admits_after_window (Some "tiny") 1001
           (checkLimit_each (Some "tiny") [0; 500] two_per_second).2
           {| requests := 2; window := 1 |} 0);
    [reflexivity | vm_compute; discriminate | vm_compute; eauto | cbn; lia].
Defined.

(** X13: what a refusal tells. When a check on a tier with a positive
    quota is refused, the ledger afterwards holds only entries inside the
    window, the reading of the refused check is not among the changes
    (the ledger is the cleaned one), and the message names the time until
    the oldest of those entries leaves the window, which is not
    negative. *)
Theorem checkLimit_refusal_wait tier now s limit e s' :
  limits s !! default "standard" tier = Some limit →
  0 < requests limit →
  checkLimit tier now s = (Throw e, s') →
  usage s' = clean_old_entries (now - window limit * 1000) (usage s)
  ∧ ∃ oldest,
      is_Some (usage s' !! oldest)
      ∧ (∀ k, is_Some (usage s' !! k) → oldest ≤ k)
      ∧ 0 ≤ oldest + window limit * 1000 - now
      ∧ e = {| name := "RateLimitError";
               message := "Rate limit exceeded. Reset in "
                          +:+ pretty (oldest + window limit * 1000 - now) +:+ "ms";
               status := None; data := None |}.
Proof.
  intros Htier Hpos Hrun.
  destruct (Z_lt_le_dec
              (Z.of_nat (size (clean_old_entries (now - window limit * 1000)
                                 (usage s))))
              (requests limit)) as [Hunder|Hover].
  { by rewrite (checkLimit_admits tier now s limit Htier Hunder) in Hrun. }
  rewrite (checkLimit_refuses tier now s limit Htier Hover) in Hrun.
  injection Hrun as <- <-. cbn [usage]. split; [done|].
  set (kept := clean_old_entries (now - window limit * 1000) (usage s)) in *.
  destruct (Math_min_least (map_to_list kept).*1) as (oldest & Hmin & Hin & Hleast).
  { intros Hnil. apply fmap_nil_inv, map_to_list_empty_iff in Hnil.
    rewrite Hnil, map_size_empty in Hover. lia. }
  assert (Hkey : ∀ k, k ∈ (map_to_list kept).*1 ↔ is_Some (kept !! k)).
  { intros k. rewrite list_elem_of_fmap. split.
    - intros [[k' b] [-> Hb%elem_of_map_to_list]]. by eexists.
    - intros [b Hb]. exists (k, b). by rewrite elem_of_map_to_list. }
  exists oldest. rewrite Hmin. cbn [waitTime_text].
  split; [by apply Hkey|]. split; [intros k Hk; by apply Hleast, Hkey|].
  split; [|done].
  apply Hkey in Hin as [b Hb]. unfold kept in Hb.
  rewrite clean_old_entries_lookup in Hb.
  destruct (Z.ltb_spec oldest (now - window limit * 1000)); [done|lia].
Qed.

Lemma checkLimit_refusal_wait_witness :
  ∃ oldest,
    0 ≤ oldest + 1 * 1000 - 900
    ∧ (checkLimit (Some "tiny") 900
         (checkLimit_each (Some "tiny") [0; 500] two_per_second).2).1
      = Throw {| name := "RateLimitError";
                 message := "Rate limit exceeded. Reset in "
                            +:+ pretty (oldest + 1 * 1000 - 900) +:+ "ms";
                 status := None; data := None |}.
Proof.
  destruct (checkLimit (Some "tiny") 900
              (checkLimit_each (Some "tiny") [0; 500] two_per_second).2)
    as [r s'] eqn:Hrun.
  assert (∃ e, r = Throw e) as [e ->].
  { apply (f_equal fst) in Hrun. vm_compute in Hrun. subst r. by eexists. }
  destruct (checkLimit_refusal_wait (Some "tiny") 900
              (checkLimit_each (Some "tiny") [0; 500] two_per_second).2
              {| requests := 2; window := 1 |} e s'
              ltac:(reflexivity) ltac:(cbn; lia) Hrun)
    as (_ & oldest & _ & _ & Hwait & ->).
  exists oldest. split; [exact Hwait | reflexivity].
Defined.

(** X14: one ledger for all tiers. Entries recorded by checks on one
    tier count against every other tier: after checks on [tier1] at
    strictly increasing readings, all admitted, a check on [tier2] is
    refused as soon as those entries alone reach the quota of [tier2]
    within its window, although no check on [tier2] was ever made. *)
Theorem checkLimit_tiers_share_ledger tier1 tier2 limit1 limit2 clock now s :
  limits s !! default "standard" tier1 = Some limit1 →
  limits s !! default "standard" tier2 = Some limit2 →
  usage s = ∅ →
  StronglySorted Z.lt clock →
  Z.of_nat (length clock) ≤ requests limit1 →
  requests limit2 ≤ Z.of_nat (length clock) →
  (∀ t t', t ∈ clock → t' ∈ clock → t' - window limit1 * 1000 ≤ t) →
  (∀ t, t ∈ clock → now - window limit2 * 1000 ≤ t) →
  ∃ s' e,
    checkLimit_each tier1 clock s = (replicate (length clock) (Normal true), s')
    ∧ checkLimit tier2 now s' = (Throw e, s')
    ∧ name e = "RateLimitError".
Proof.
  intros Htier1 Htier2 Hempty Hsorted Hroom Hfull Hnear Hwindow.
  destruct (checkLimit_each_admits tier1 limit1 clock s)
    as (s' & Hrun & Hlimits & Hkeys & Hsize); try done.
  - intros t k _ [b Hk]. by rewrite Hempty, lookup_empty in Hk.
  - rewrite Hempty, map_size_empty. lia.
  - assert (Hid : clean_old_entries (now - window limit2 * 1000) (usage s')
                  = usage s').
    { apply clean_old_entries_id. intros k Hk%Hkeys.
      destruct Hk as [Hk|[b Hb]]; [by apply Hwindow|].
      by rewrite Hempty, lookup_empty in Hb. }
    rewrite <- Hlimits in Htier2.
    exists s'. eexists. split; [done|].
    rewrite (checkLimit_refuses tier2 now s' limit2 Htier2); rewrite Hid.
    + replace {| limits := limits s'; usage := usage s' |} with s'
        by (by destruct s').
      split; reflexivity.
    + rewrite Hsize, Hempty, map_size_empty. lia.
Qed.

Lemma checkLimit_tiers_share_ledger_witness :
  ∃ s' e,
    checkLimit_each (Some "roomy") [10; 20]
      {| limits := {[ "roomy" := {| requests := 50; window := 60 |};
                      "tiny" := {| requests := 2; window := 1 |} ]};
         usage := ∅ |}
    = ([Normal true; Normal true], s')
    ∧ checkLimit (Some "tiny") 30 s' = (Throw e, s')
    ∧ name e = "RateLimitError".
Proof.
  apply (checkLimit_tiers_share_ledger (Some "roomy") (Some "tiny")
           {| requests := 50; window := 60 |} {| requests := 2; window := 1 |}
           [10; 20] 30
           {| limits := {[ "roomy" := {| requests := 50; window := 60 |};
                           "tiny" := {| requests := 2; window := 1 |} ]};
              usage := ∅ |});
    [reflexivity | reflexivity | reflexivity | | cbn; lia | cbn; lia | |].
  - repeat constructor.
  - intros t t' Ht Ht'.
    apply elem_of_cons in Ht as [->|Ht%list_elem_of_singleton];
      apply elem_of_cons in Ht' as [->|Ht'%list_elem_of_singleton]; subst; cbn; lia.
  - intros t Ht.
    apply elem_of_cons in Ht as [->|Ht%list_elem_of_singleton]; subst; cbn; lia.
Defined.

End LedgerSpec.

(** ** More on [chunkArray] *)

Module BatchSpec.
Import FCGuestManager ChunkSpec.

Section Chunk.
Context {A : Type}.

(** The chunks the loop adds from index [i] on: the [j]-th of them is the
    slice that starts at [i + j * size], as long as that index is inside
    the array. *)
Lemma chunkArray_loop_lookup (fuel : nat) :
  ∀ (array : list A) (size i : Z) (chunks : list (list A)),
    0 < size → 0 ≤ i →
    (Z.to_nat (Z.of_nat (length array) - i) < fuel)%nat →
    ∃ rest,
      chunkArray_loop fuel array size i chunks = Some (chunks ++ rest)
      ∧ ∀ j : nat,
          rest !! j
          = if i + Z.of_nat j * size <? Z.of_nat (length array)
            then Some (take (Z.to_nat size)
                         (drop (Z.to_nat (i + Z.of_nat j * size)) array))
            else None.
Proof.
  induction fuel as [|fuel IH]; intros array size i chunks Hs Hi Hf; [lia|].
  simpl. destruct (Z.ltb_spec i (Z.of_nat (length array))) as [Hlt|Hge].
  - destruct (IH array size (i + size) (chunks ++ [slice array i (i + size)]))
      as (rest & Hrun & Hrest); [lia..|].
    exists (slice array i (i + size) :: rest).
    rewrite Hrun, <- app_assoc. split; [done|].
    intros [|j].
    + cbn. rewrite Z.add_0_r.
      destruct (Z.ltb_spec i (Z.of_nat (length array))); [|lia].
      by rewrite slice_inside by lia.
    + cbn [lookup list_lookup]. rewrite Hrest.
      by replace (i + size + Z.of_nat j * size) with (i + Z.of_nat (S j) * size) by lia.
  - exists []. rewrite app_nil_r. split; [done|].
    intros j. cbn.
    destruct (Z.ltb_spec (i + Z.of_nat j * size) (Z.of_nat (length array))); [nia|done].
Qed.

Lemma chunkArray_lookup (array : list A) (size : Z) :
  0 < size →
  ∃ chunks,
    chunkArray array size = Some chunks
    ∧ ∀ j : nat,
        chunks !! j
        = if Z.of_nat j * size <? Z.of_nat (length array)
          then Some (take (Z.to_nat size) (drop (Z.to_nat (Z.of_nat j * size)) array))
          else None.
Proof.
  intros Hs.
  destruct (chunkArray_loop_lookup (S (length array)) array size 0 [])
    as (rest & Hrun & Hrest); [lia..|].
  exists rest. split; [done|]. intros j. by rewrite Hrest, Z.add_0_l.
Qed.

(** X15: the number of batches. For a positive chunk size [chunkArray]
    returns the array length divided by the size, rounded up, many
    chunks; none for an empty array. *)
Theorem chunkArray_count (array : list A) (size : Z) :
  0 < size →
  ∃ chunks,
    chunkArray array size = Some chunks
    ∧ Z.of_nat (length chunks) = (Z.of_nat (length array) + size - 1) / size.
Proof.
  intros Hs. destruct (chunkArray_lookup array size Hs) as (chunks & Hrun & Hlookup).
  exists chunks. split; [done|].
  assert (Hend : Z.of_nat (length array) ≤ Z.of_nat (length chunks) * size).
  { pose proof (Hlookup (length chunks)) as Hl.
    rewrite lookup_ge_None_2 in Hl by lia.
    by destruct (Z.ltb_spec (Z.of_nat (length chunks) * size)
                   (Z.of_nat (length array))). }
  assert (Hlast : ∀ j : nat, (j < length chunks)%nat →
                    Z.of_nat j * size < Z.of_nat (length array)).
  { intros j Hj. apply lookup_lt_is_Some_2 in Hj as [c Hc].
    rewrite Hlookup in Hc.
    by destruct (Z.ltb_spec (Z.of_nat j * size) (Z.of_nat (length array))). }
  apply Z.div_unique with
    (r := Z.of_nat (length array) + size - 1 - size * Z.of_nat (length chunks));
    [|lia].
  left. destruct (length chunks) as [|n] eqn:Hn; [lia|].
  specialize (Hlast n ltac:(lia)). lia.
Qed.

(** X16: where each element goes. For a positive chunk size the element
    at index [i] of the array is the element at offset [i mod size] of
    chunk number [i / size]: order is kept and nothing is dropped or
    repeated. *)
Theorem chunkArray_places_elements (array : list A) (size : Z) :
  0 < size →
  ∃ chunks,
    chunkArray array size = Some chunks
    ∧ ∀ (i : nat) (x : A),
        array !! i = Some x →
        ∃ c, chunks !! Z.to_nat (Z.of_nat i / size) = Some c
             ∧ c !! Z.to_nat (Z.of_nat i mod size) = Some x.
Proof.
  intros Hs. destruct (chunkArray_lookup array size Hs) as (chunks & Hrun & Hlookup).
  exists chunks. split; [done|]. intros i x Hx.
  pose proof (lookup_lt_Some _ _ _ Hx) as Hi.
  pose proof (Z.div_mod (Z.of_nat i) size ltac:(lia)) as Hdm.
  pose proof (Z.mod_pos_bound (Z.of_nat i) size Hs) as Hmod.
  assert (0 ≤ Z.of_nat i / size) by (apply Z.div_pos; lia).
  eexists. split.
  - rewrite Hlookup, Z2Nat.id by done.
    destruct (Z.ltb_spec (Z.of_nat i / size * size) (Z.of_nat (length array)));
      [done|nia].
  - rewrite lookup_take_lt by lia. rewrite lookup_drop, <- Hx. f_equal. nia.
Qed.

(** X17: a step that is not positive. With a size of zero or below and a
    non-empty array the loop never ends, whatever the fuel: the index
    never passes the end of the array. An empty array gives no chunks
    whatever the size. *)
Theorem chunkArray_non_positive_size (array : list A) (size : Z) :
  size ≤ 0 →
  (array ≠ [] → ∀ fuel, chunkArray_loop fuel array size 0 [] = None)
  ∧ chunkArray ([] : list A) size = Some [].
Proof.
  intros Hs. split; [|done].
  intros Hne fuel. apply chunkArray_loop_diverges; [done|].
  destruct array; [done|]. cbn. lia.
Qed.

End Chunk.

Lemma chunkArray_count_witness :
  ∃ chunks,
    chunkArray (seqZ 1 23) 10 = Some chunks
    ∧ Z.of_nat (length chunks) = (Z.of_nat (length (seqZ 1 23)) + 10 - 1) / 10.
Proof. apply (chunkArray_count (seqZ 1 23) 10). lia. Defined.

Lemma chunkArray_places_elements_witness :
  ∃ chunks,
    chunkArray [3; 1; 4; 1; 5] 2 = Some chunks
    ∧ ∀ (i : nat) (x : Z),
        [3; 1; 4; 1; 5] !! i = Some x →
        ∃ c, chunks !! Z.to_nat (Z.of_nat i / 2) = Some c
             ∧ c !! Z.to_nat (Z.of_nat i mod 2) = Some x.
Proof. apply (chunkArray_places_elements [3; 1; 4; 1; 5] 2). lia. Defined.

Lemma chunkArray_non_positive_size_witness :
  ([7; 8] ≠ [] → ∀ fuel, chunkArray_loop fuel [7; 8] 0 0 [] = None)
  ∧ chunkArray ([] : list Z) 0 = Some [].
Proof. apply (chunkArray_non_positive_size [7; 8] 0). lia. Defined.

End BatchSpec.

(** ** The pattern for e-mail addresses *)

Module RegexSpec.

Lemma nullable_Matches r : nullable r = true ↔ Matches r [].
Proof.
  split.
  - induction r; cbn; intros Hn; try done.
    + constructor.
    + apply andb_true_iff in Hn as [H1 H2].
      change (@nil N) with (@nil N ++ []). constructor; auto.
    + apply orb_true_iff in Hn as [H|H]; [apply Matches_alt_l|apply Matches_alt_r]; auto.
    + constructor.
  - intros Hm. remember [] as s eqn:Hs.
    induction Hm; cbn; try done.
    + apply app_eq_nil in Hs as [-> ->]. by rewrite IHHm1, IHHm2.
    + by rewrite IHHm.
    + rewrite IHHm by done. apply orb_true_r.
Qed.

Lemma derivative_sound c r : ∀ s, Matches (derivative c r) s → Matches r (c :: s).
Proof.
  induction r as [| |accepts|r1 IH1 r2 IH2|r1 IH1 r2 IH2|r IH]; cbn; intros s Hm.
  - inversion Hm.
  - inversion Hm.
  - destruct (accepts c) eqn:Hc; inversion Hm; subst. by constructor.
  - assert (Hseq : ∀ s, Matches (Seq (derivative c r1) r2) s →
                        Matches (Seq r1 r2) (c :: s)).
    { intros s0 Hs0. inversion Hs0; subst.
      change (c :: s1 ++ s2) with ((c :: s1) ++ s2). constructor; auto. }
    destruct (nullable r1) eqn:Hn; [|by apply Hseq].
    inversion Hm; subst; [by apply Hseq|].
    change (c :: s) with ([] ++ c :: s). constructor; [|auto].
    by apply nullable_Matches.
  - inversion Hm; subst; [apply Matches_alt_l|apply Matches_alt_r]; auto.
  - inversion Hm; subst.
    change (c :: s1 ++ s2) with ((c :: s1) ++ s2). constructor; auto.
Qed.

Lemma derivative_complete r s' :
  Matches r s' → ∀ c s, s' = c :: s → Matches (derivative c r) s.
Proof.
  induction 1 as [|accepts c' Hc|r1 r2 s1 s2 H1 IH1 H2 IH2|r1 r2 s0 H IH
                 |r1 r2 s0 H IH|r|r s1 s2 H1 IH1 H2 IH2];
    intros c s Hs; cbn.
  - done.
  - injection Hs as -> <-. rewrite Hc. constructor.
  - destruct s1 as [|c1 s1]; cbn in Hs.
    + apply nullable_Matches in H1. rewrite H1.
      apply Matches_alt_r. by apply IH2.
    + injection Hs as -> <-.
      assert (Matches (Seq (derivative c r1) r2) (s1 ++ s2))
        by (constructor; auto).
      destruct (nullable r1); [by apply Matches_alt_l|done].
  - apply Matches_alt_l. by apply IH.
  - apply Matches_alt_r. by apply IH.
  - done.
  - destruct s1 as [|c1 s1]; cbn in Hs.
    + by apply IH2.
    + injection Hs as -> <-. constructor; auto.
Qed.

(** The matcher decides membership. *)
Lemma matches_Matches units : ∀ r, matches r units = true ↔ Matches r units.
Proof.
  induction units as [|c units IH]; intros r; cbn.
  - apply nullable_Matches.
  - rewrite IH. split; [apply derivative_sound|].
    intros Hm. by apply (derivative_complete r (c :: units)).
Qed.

Lemma Matches_Seq r1 r2 s :
  Matches (Seq r1 r2) s ↔ ∃ s1 s2, s = s1 ++ s2 ∧ Matches r1 s1 ∧ Matches r2 s2.
Proof.
  split.
  - inversion 1; subst. eauto.
  - intros (s1 & s2 & -> & H1 & H2). by constructor.
Qed.

Lemma Matches_Class accepts s :
  Matches (Class accepts) s ↔ ∃ c, s = [c] ∧ accepts c = true.
Proof.
  split.
  - inversion 1; subst. eauto.
  - intros (c & -> & Hc). by constructor.
Qed.

Lemma Matches_Star_Class accepts s :
  Matches (Star (Class accepts)) s ↔ Forall (λ c, accepts c = true) s.
Proof.
  split.
  - intros Hm. remember (Star (Class accepts)) as r eqn:Hr.
    induction Hm; try done.
    injection Hr as ->. apply Forall_app. split; [|auto].
    apply Matches_Class in Hm1 as (c & -> & Hc). by constructor.
  - induction 1 as [|c s Hc Hs IH]; [constructor|].
    change (c :: s) with ([c] ++ s). constructor; [by constructor|done].
Qed.

Lemma Matches_Plus_Class accepts s :
  Matches (Plus (Class accepts)) s ↔ s ≠ [] ∧ Forall (λ c, accepts c = true) s.
Proof.
  unfold Plus. rewrite Matches_Seq. split.
  - intros (s1 & s2 & -> & (c & -> & Hc)%Matches_Class & Hs%Matches_Star_Class).
    split; [done|]. by constructor.
  - intros [Hne Hall]. destruct s as [|c s]; [done|].
    apply Forall_cons in Hall as [Hc Hs].
    exists [c], s. split; [done|].
    split; [by apply Matches_Class; eauto|by apply Matches_Star_Class].
Qed.

(** X18: what the pattern for e-mail addresses accepts. A string passes
    [emailRegex.test] exactly when it reads [local@domain.rest] where
    [local], [domain] and [rest] are non-empty and contain neither white
    space nor [@] (dots are allowed in each): so exactly one [@], and
    after it a dot that is neither next to it nor last. *)
Theorem emailRegex_accepts (s : string) :
  RegExp_test emailRegex s = true
  ↔ ∃ local domain rest,
      code_units s = local ++ [64%N] ++ domain ++ [46%N] ++ rest
      ∧ local ≠ [] ∧ domain ≠ [] ∧ rest ≠ []
      ∧ Forall plain local ∧ Forall plain domain ∧ Forall plain rest.
Proof.
  unfold RegExp_test, emailRegex, Lit. rewrite matches_Matches. split.
  - intros Hm.
    apply Matches_Seq in Hm as (l & s1 & Hs & [Hl Hlall]%Matches_Plus_Class & Hm).
    apply Matches_Seq in Hm as (? & s2 & -> & (c1 & -> & Hc1)%Matches_Class & Hm).
    apply Matches_Seq in Hm as (d & s3 & -> & [Hd Hdall]%Matches_Plus_Class & Hm).
    apply Matches_Seq in Hm
      as (? & t & -> & (c2 & -> & Hc2)%Matches_Class & [Ht Htall]%Matches_Plus_Class).
    apply N.eqb_eq in Hc1 as <-, Hc2 as <-.
    by exists l, d, t.
  - intros (l & d & t & -> & Hl & Hd & Ht & Hlall & Hdall & Htall).
    apply Matches_Seq. exists l, ([64%N] ++ d ++ [46%N] ++ t).
    split; [done|]. split; [by apply Matches_Plus_Class|].
    apply Matches_Seq. exists [64%N], (d ++ [46%N] ++ t).
    split; [done|]. split; [apply Matches_Class; by eexists|].
    apply Matches_Seq. exists d, ([46%N] ++ t).
    split; [done|]. split; [by apply Matches_Plus_Class|].
    apply Matches_Seq. exists [46%N], t.
    split; [done|]. split; [apply Matches_Class; by eexists|].
    by apply Matches_Plus_Class.
Qed.

End RegexSpec.

(** ** The executor: validation, initialisation, verification *)

Module ExecutorSpec.
Import ClientSpec.

(** X19: the outcome of [validateEnvironment]. Variables that are unset
    or empty are reported first, all at once and in the order
    [GATHER_API_KEY], [FC_CONTACT_EMAIL]; the format of the address is
    looked at only when both are set, and the validation passes exactly
    when [FC_CONTACT_EMAIL] then matches the pattern. In every case the
    world is left as it was. *)
Theorem validateEnvironment_outcome (w : World) :
  validateEnvironment w
  = (match is_set (process_env w) "GATHER_API_KEY",
           process_env w !! "FC_CONTACT_EMAIL" with
     | true, Some (String c email) =>
         if RegExp_test emailRegex (String c email) then Normal tt
         else Throw (Error "FC_CONTACT_EMAIL is not a valid email address")
     | true, _ =>
         Throw (Error "Missing required environment variables: FC_CONTACT_EMAIL")
     | false, Some (String c email) =>
         Throw (Error "Missing required environment variables: GATHER_API_KEY")
     | false, _ =>
         Throw (Error "Missing required environment variables: GATHER_API_KEY, FC_CONTACT_EMAIL")
     end, w).
Proof.
  unfold validateEnvironment, mbind, M_bind, bind, gets, is_set. cbn beta iota.
  cbn [List.filter].
  destruct (truthy (env_var (process_env w) "GATHER_API_KEY")); cbn [negb];
    unfold env_var;
    destruct (process_env w !! "FC_CONTACT_EMAIL") as [[|c email]|];
    cbn -[RegExp_test]; try done.
  by destruct (RegExp_test emailRegex (String c email)).
Qed.

Lemma validateEnvironment_passes w :
  (validateEnvironment w).1 = Normal tt →
  ∃ c key email,
    process_env w !! "GATHER_API_KEY" = Some (String c key)
    ∧ process_env w !! "FC_CONTACT_EMAIL" = Some email
    ∧ RegExp_test emailRegex email = true.
Proof.
  rewrite validateEnvironment_outcome. cbn [fst]. unfold is_set, env_var.
  destruct (process_env w !! "GATHER_API_KEY") as [[|c key]|];
    destruct (process_env w !! "FC_CONTACT_EMAIL") as [[|c' email]|];
    cbn -[RegExp_test]; try done.
  destruct (RegExp_test emailRegex (String c' email)) eqn:Htest; [|done].
  intros _. by exists c, key, (String c' email).
Qed.

(** X20: validation is enough for initialisation. In an environment that
    [validateEnvironment] accepts, [initializeManager] cannot fail: it
    sets [fcManager] to a manager whose client holds the key of the
    environment with the default retry policy, and whose contact address
    is the validated [FC_CONTACT_EMAIL]; no request is made. *)
Theorem validated_environment_initializes (x : Execution) :
  (validateEnvironment (surroundings x)).1 = Normal tt →
  ∃ key email manager,
    process_env (surroundings x) !! "GATHER_API_KEY" = Some key
    ∧ process_env (surroundings x) !! "FC_CONTACT_EMAIL" = Some email
    ∧ RegExp_test emailRegex email = true
    ∧ initializeManager x = (Normal tt, set_fcManager manager x)
    ∧ apiKey (gatherApi manager) = JStr key
    ∧ retryConfig (gatherApi manager)
      = {| maxRetries := 3; backoffMs := 1000;
           retryCondition := default_retryCondition |}
    ∧ contactEmail (fcConfig manager) = JStr email.
Proof.
  intros (c & key & email & Hkey & Hemail & Htest)%validateEnvironment_passes.
  exists (String c key), email.
  assert (email ≠ EmptyString) as Hne.
  { intros ->. by vm_compute in Htest. }
  eexists. split; [done|]. split; [done|]. split; [done|].
  unfold initializeManager, try_catch, in_surroundings.
  unfold mbind, M_bind, bind, gets, modify. cbn beta iota.
  unfold new_FCGuestManager.
  unfold mbind, M_bind, bind, gets, ret. cbn beta iota.
  unfold new_GatherAPIClient.
  unfold mbind, M_bind, bind, gets, ret, throw. cbn beta iota.
  unfold env_var at 1 2 3. rewrite Hkey. cbn -[env_var].
  split; [reflexivity|]. cbn -[env_var]. split; [done|]. split; [done|].
  unfold env_var. rewrite Hemail. by destruct email.
Qed.

Lemma validated_environment_initializes_witness :
  ∃ manager,
    initializeManager
      {| executor := new_POCExecutor "poc-1" 0;
         surroundings :=
           sample_world {[ "GATHER_API_KEY" := "k";
                           "FC_CONTACT_EMAIL" := "contact@firstcontact.lgbt" ]}
             (λ _, Rejected "FetchError" "offline") |}
    = (Normal tt,
       set_fcManager manager
         {| executor := new_POCExecutor "poc-1" 0;
            surroundings :=
              sample_world {[ "GATHER_API_KEY" := "k";
                              "FC_CONTACT_EMAIL" := "contact@firstcontact.lgbt" ]}
                (λ _, Rejected "FetchError" "offline") |})
    ∧ contactEmail (fcConfig manager) = JStr "contact@firstcontact.lgbt".
Proof.
  assert (Hvalid :
    (validateEnvironment
       (surroundings
          {| executor := new_POCExecutor "poc-1" 0;
             surroundings :=
               sample_world {[ "GATHER_API_KEY" := "k";
                               "FC_CONTACT_EMAIL" := "contact@firstcontact.lgbt" ]}
                 (λ _, Rejected "FetchError" "offline") |})).1 = Normal tt)
    by (vm_compute; reflexivity).
  destruct (validated_environment_initializes _ Hvalid)
    as (key & email & manager & _ & Hemail & _ & Hrun & _ & _ & Hcontact).
  exists manager. split; [exact Hrun|].
  rewrite Hcontact. f_equal.
  assert (Some email = Some "contact@firstcontact.lgbt") as [= ->]; [|done].
  rewrite <- Hemail. by vm_compute.
Defined.

(** X21: when initialisation fails. [initializeManager] fails exactly
    when [GATHER_API_KEY] is unset or empty; the error is then a plain
    [Error] whose message is that of the constructor behind a fixed
    prefix, and the executor is left as it was, its [fcManager] not
    set. *)
Theorem initializeManager_fails_iff (x : Execution) :
  ((initializeManager x).1 = Normal tt
   ↔ is_set (process_env (surroundings x)) "GATHER_API_KEY" = true)
  ∧ (is_set (process_env (surroundings x)) "GATHER_API_KEY" = false →
     initializeManager x
     = (Throw {| name := "Error";
                 message := "Failed to initialize FC Guest Manager: "
                            +:+ "Gather.Town API key is required";
                 status := None; data := None |}, x)).
Proof.
  unfold initializeManager, try_catch, in_surroundings, is_set.
  unfold mbind, M_bind, bind, gets, modify. cbn beta iota.
  unfold new_FCGuestManager.
  unfold mbind, M_bind, bind, gets, ret. cbn beta iota.
  unfold new_GatherAPIClient.
  unfold mbind, M_bind, bind, gets, ret, throw. cbn beta iota.
  assert (Hor : ∀ v, truthy (js_or v v) = truthy v).
  { intros v. unfold js_or. by destruct (truthy v) eqn:Hv. }
  rewrite Hor.
  destruct (truthy (env_var (process_env (surroundings x)) "GATHER_API_KEY"));
    cbn; [done|].
  split; [done|]. intros _. by destruct x.
Qed.

Lemma makeRequest_first_ok endpoint options s r v :
  0 ≤ maxRetries (retryConfig (this s)) →
  next_outcome s (request_url (this s) endpoint)
    (spread (defaultOptions (this s)) options) = Responded r →
  Response.ok r = true →
  Response.json r = inr v →
  makeRequest endpoint options s
  = (Normal v,
     after (EvFetch (request_url (this s) endpoint)
              (spread (defaultOptions (this s)) options)) s).
Proof.
  intros Hmax Hnet Hok Hjson.
  rewrite makeRequest_eq, makeRequest_loop_turn. cbn zeta.
  destruct (Z.leb_spec 0 (maxRetries (retryConfig (this s)))); [|lia].
  rewrite Hnet. unfold settle. by rewrite Hjson, Hok.
Qed.

Lemma manager_eta (x : Execution) manager :
  fcManager (executor x) = Some manager →
  {| fcManager := Some {| gatherApi := gatherApi manager;
                          fcConfig := fcConfig manager |};
     pocId := pocId (executor x); startTime := startTime (executor x);
     results := results (executor x) |}
  = executor x.
Proof. destruct x as [[? ? ? ?] ?], manager. cbn. by intros ->. Qed.

(** A [GET] through the client of the manager that is answered at once
    by a 2xx response with a JSON body. *)
Lemma on_gatherApi_first_ok x manager endpoint r v :
  fcManager (executor x) = Some manager →
  0 ≤ maxRetries (retryConfig (gatherApi manager)) →
  network (surroundings x) (served (surroundings x))
    (request_url (gatherApi manager) endpoint)
    (defaultOptions (gatherApi manager)) = Responded r →
  Response.ok r = true →
  Response.json r = inr v →
  on_gatherApi (makeRequest endpoint no_options) x
  = (Normal v,
     advance (EvFetch (request_url (gatherApi manager) endpoint)
                (defaultOptions (gatherApi manager))) x).
Proof.
  intros Hm Hmax Hnet Hok Hjson. unfold on_gatherApi. rewrite Hm.
  rewrite (makeRequest_first_ok endpoint no_options _ r v); try done.
  unfold advance, after. cbn [this world]. by rewrite manager_eta.
Qed.

(** [find] with the callback of [verifyImplementation], on entries off
    which a property can be read. *)
Lemma Array_find_email {S} (wanted : JsValue) (items : list JsValue) (st : S) :
  Forall readable items →
  Array_find (λ guest, email ← get_property guest "email";
                       ret (strict_equal email wanted)) items st
  = (Normal (default JUndefined
               (List.find (λ guest, strict_equal (property guest "email") wanted)
                  items)), st).
Proof.
  induction 1 as [|guest items [Hu Hn] Hitems IH]; [done|].
  cbn [Array_find List.find]. unfold bind at 1.
  assert (Hget : (email ← get_property guest "email";
                  ret (strict_equal email wanted)) st
                 = (Normal (strict_equal (property guest "email") wanted), st))
    by (by destruct guest).
  rewrite Hget.
  by destruct (strict_equal (property guest "email") wanted).
Qed.

(** X22: the outcome of [verifyImplementation]. With a manager in
    place, the space request and the guest-list request each answered at
    once by a 2xx response with a JSON body, and a guest list whose
    [guests] is an array of entries other than [null]: falsy space details
    fail the verification before the guest list is asked for; otherwise
    the verification looks at the first entry whose [email] is
    [FC_CONTACT_EMAIL], and only at that one: it fails when there is none,
    fails when the role of that entry is not [moderator] (even if a later
    entry with the address has it), and passes otherwise. Every failure
    is a plain [Error] behind the prefix "Verification failed: ". *)
Theorem verifyImplementation_outcome
    spaceId x manager email r1 spaceDetails r2 props items :
  fcManager (executor x) = Some manager →
  0 ≤ maxRetries (retryConfig (gatherApi manager)) →
  process_env (surroundings x) !! "FC_CONTACT_EMAIL" = Some email →
  network (surroundings x) (served (surroundings x))
    (request_url (gatherApi manager) ("/spaces/" +:+ ToString spaceId))
    (defaultOptions (gatherApi manager)) = Responded r1 →
  Response.ok r1 = true → Response.json r1 = inr spaceDetails →
  network (surroundings x) (S (served (surroundings x)))
    (request_url (gatherApi manager) ("/spaces/" +:+ ToString spaceId +:+ "/guests"))
    (defaultOptions (gatherApi manager)) = Responded r2 →
  Response.ok r2 = true → Response.json r2 = inr (JObj props) →
  assoc "guests" props = JArr items →
  Forall readable items →
  verifyImplementation spaceId x
  = if truthy spaceDetails then
      (match List.find (has_email email) items with
       | Some guest =>
           if strict_equal (property guest "role") (JStr "moderator") then Normal tt
           else Throw (Error "Verification failed: FC contact does not have moderator role")
       | None =>
           Throw (Error "Verification failed: FC contact not found in guest list")
       end,
       advance (EvFetch (request_url (gatherApi manager)
                           ("/spaces/" +:+ ToString spaceId +:+ "/guests"))
                  (defaultOptions (gatherApi manager)))
         (advance (EvFetch (request_url (gatherApi manager)
                              ("/spaces/" +:+ ToString spaceId))
                     (defaultOptions (gatherApi manager))) x))
    else
      (Throw (Error "Verification failed: Space verification failed"),
       advance (EvFetch (request_url (gatherApi manager)
                           ("/spaces/" +:+ ToString spaceId))
                  (defaultOptions (gatherApi manager))) x).
Proof.
  intros Hm Hmax Hemail Hnet1 Hok1 Hjson1 Hnet2 Hok2 Hjson2 Hguests Hitems.
  unfold verifyImplementation, try_catch, getSpace, getGuestList.
  unfold mbind at 1, M_bind at 1, bind at 1.
  rewrite (on_gatherApi_first_ok x manager _ r1 spaceDetails) by done.
  destruct (truthy spaceDetails) eqn:Hspace; cbn [negb]; [|done].
  unfold mbind at 1, M_bind at 1, bind at 1.
  rewrite (on_gatherApi_first_ok _ manager _ r2 (JObj props))
    by (cbn [advance executor surroundings record_event served network]; done).
  unfold mbind at 1, M_bind at 1, bind at 1, gets at 1. cbn beta iota.
  cbn [advance surroundings record_event process_env].
  unfold mbind at 1, M_bind at 1, bind at 1, get_property at 1, ret at 1.
  cbn beta iota. rewrite Hguests.
  unfold mbind at 1, M_bind at 1, bind at 1.
  rewrite (Array_find_email _ items _ Hitems).
  unfold env_var. rewrite Hemail. fold (has_email email).
  destruct (List.find (has_email email) items) as [guest|] eqn:Hfind;
    cbn [default from_option id]; [|done].
  assert (∃ gprops, guest = JObj gprops) as [gprops ->].
  { apply List.find_some in Hfind as [_ Hhas]. unfold has_email in Hhas.
    destruct guest; try done. by eexists. }
  cbn [truthy negb]. unfold mbind, M_bind, bind, get_property, ret, throw.
  cbn beta iota. cbn [property].
  by destruct (strict_equal (assoc "role" gprops) (JStr "moderator")).
Qed.

(** The contact listed twice, first as a member and then as a moderator:
    the second entry is not looked at. *)
Lemma verifyImplementation_outcome_witness :
  List.find (has_email "contact@firstcontact.lgbt") shadowed_guests
  = Some (JObj [("email", JStr "contact@firstcontact.lgbt"); ("role", JStr "member")])
  ∧ verifyImplementation (JStr "s1") (sample_execution shadowed_answers)
    = (Throw (Error "Verification failed: FC contact does not have moderator role"),
       advance (EvFetch "https://gather.town/api/v2/spaces/s1/guests"
                  (defaultOptions sample_client))
         (advance (EvFetch "https://gather.town/api/v2/spaces/s1"
                     (defaultOptions sample_client))
            (sample_execution shadowed_answers))).
Proof.
  split; [reflexivity|].
  rewrite (verifyImplementation_outcome (JStr "s1")
             (sample_execution shadowed_answers) sample_manager
             "contact@firstcontact.lgbt"
             {| Response.status := 200; Response.statusText := "OK";
                Response.json := inr (JObj [("id", JStr "s1")]) |}
             (JObj [("id", JStr "s1")])
             {| Response.status := 200; Response.statusText := "OK";
                Response.json := inr (JObj [("guests", JArr shadowed_guests)]) |}
             [("guests", JArr shadowed_guests)] shadowed_guests);
    [reflexivity | reflexivity | cbn; lia | by vm_compute | reflexivity
    | reflexivity | reflexivity | reflexivity | reflexivity | reflexivity
    | reflexivity |].
  repeat constructor; done.
Defined.

(** X23: a failed space request ends verification, and its status is
    lost. When the space request is answered by an error response with a
    status below 500 other than 429 and a JSON body, [verifyImplementation]
    throws after that one [fetch], without asking for the guest list; what
    it throws is a plain [Error] whose message is the message of the
    [APIError] behind the prefix, and which has no [status]. *)
Theorem verifyImplementation_space_error spaceId x manager r v :
  fcManager (executor x) = Some manager →
  retryCondition (retryConfig (gatherApi manager)) = default_retryCondition →
  0 ≤ maxRetries (retryConfig (gatherApi manager)) →
  network (surroundings x) (served (surroundings x))
    (request_url (gatherApi manager) ("/spaces/" +:+ ToString spaceId))
    (defaultOptions (gatherApi manager)) = Responded r →
  Response.ok r = false →
  Response.status r < 500 → Response.status r ≠ 429 →
  Response.json r = inr v → readable v →
  verifyImplementation spaceId x
  = (Throw {| name := "Error";
              message := "Verification failed: "
                         +:+ ToString (js_or (property v "message")
                                         (JStr (Response.statusText r)));
              status := None; data := None |},
     advance (EvFetch (request_url (gatherApi manager)
                         ("/spaces/" +:+ ToString spaceId))
                (defaultOptions (gatherApi manager))) x).
Proof.
  intros Hm Hcond Hmax Hnet Hok Hlow Hne Hjson Hread.
  unfold verifyImplementation, try_catch, getSpace.
  unfold mbind at 1, M_bind at 1, bind at 1.
  unfold on_gatherApi. rewrite Hm.
  rewrite makeRequest_eq, makeRequest_loop_turn. cbn zeta. cbn [this world].
  destruct (Z.leb_spec 0 (maxRetries (retryConfig (gatherApi manager)))); [|lia].
  unfold next_outcome. cbn [this world].
  change (spread (defaultOptions (gatherApi manager)) no_options)
    with (defaultOptions (gatherApi manager)).
  rewrite Hnet, (settle_error_response r v Hok Hjson Hread), Hcond.
  assert (Hno : default_retryCondition (api_error r v) = false).
  { unfold default_retryCondition, api_error. cbn.
    destruct (Z.leb_spec 500 (Response.status r)); [lia|].
    by destruct (Z.eqb_spec (Response.status r) 429). }
  rewrite Hno, orb_true_r. cbn [after this world].
  rewrite manager_eta by done. done.
Qed.

Lemma verifyImplementation_space_error_witness :
  verifyImplementation (JStr "gone")
    (sample_execution (λ _, respond 404 "Not Found" (inr (JObj []))))
  = (Throw {| name := "Error";
              message := "Verification failed: "
                         +:+ ToString (js_or (property (JObj []) "message")
                                         (JStr "Not Found"));
              status := None; data := None |},
     advance (EvFetch "https://gather.town/api/v2/spaces/gone"
                (defaultOptions sample_client))
       (sample_execution (λ _, respond 404 "Not Found" (inr (JObj []))))).
Proof.
  apply (verifyImplementation_space_error (JStr "gone")
           (sample_execution (λ _, respond 404 "Not Found" (inr (JObj []))))
           sample_manager
           {| Response.status := 404; Response.statusText := "Not Found";
              Response.json := inr (JObj []) |} (JObj []));
    [reflexivity | reflexivity | cbn; lia | reflexivity | reflexivity
    | cbn; lia | cbn; lia | reflexivity | done].
Defined.

End ExecutorSpec.
